(** * Release utilities of the pdg build script ([scripts/_lib/release.py])

    A shallow embedding of the five functions of [release.py] and the
    properties of its tag discovery, version increment, commit harvesting,
    commit categorisation and release-note rendering.

    Modelling conventions.
    - A Python [str] is a sequence of Unicode code points: [pystr] is a list
      of code points, each an [N].  String literals of the source are written
      [py "..."], which decodes the UTF-8 bytes of the Rocq literal.
    - Python's [int] is unbounded: [Z].
    - An exception is a value: fallible code returns a [result].
    - [subprocess.run] is the boundary of the model.  The functions receive
      it as a function from the argument vector and working directory to a
      [CompletedProcess] (return code and decoded standard output, which may
      be [None]), exactly what the tests of the repository mock.
    - White space ([str.strip], [\s]) is the interpreter's fixed set of
      code points.  The decimal digits outside ASCII ([\d], [int]) come
      from the Unicode character database and are a parameter of the
      development; the ASCII range is written out.
    - The interpreter refuses to convert between [str] and [int] beyond
      [sys.int_max_str_digits] decimal digits, with a [ValueError], in both
      directions.  The limit is modelled at its default, 4300. *)

From Stdlib Require Import ZArith NArith List Ascii String Decimal DecimalN DecimalPos Lia Bool.
From Stdlib Require DecimalFacts.
From stdpp Require Import base gmap strings list fin_maps.

Local Open Scope N_scope.

(** ** Python strings *)

Abbreviation char := N (only parsing).
Abbreviation pystr := (list N) (only parsing).

(** UTF-8 decoding, used to write the literals of the source. *)
Fixpoint utf8_decode (bs : list N) : pystr :=
  match bs with
  | [] => []
  | b0 :: r0 =>
    if b0 <? 128 then b0 :: utf8_decode r0
    else if b0 <? 224 then
      match r0 with
      | b1 :: r1 => ((b0 - 192) * 64 + (b1 - 128)) :: utf8_decode r1
      | _ => []
      end
    else if b0 <? 240 then
      match r0 with
      | b1 :: b2 :: r2 =>
          ((b0 - 224) * 4096 + (b1 - 128) * 64 + (b2 - 128)) :: utf8_decode r2
      | _ => []
      end
    else
      match r0 with
      | b1 :: b2 :: b3 :: r3 =>
          ((b0 - 240) * 262144 + (b1 - 128) * 4096 + (b2 - 128) * 64 + (b3 - 128))
            :: utf8_decode r3
      | _ => []
      end
  end.

Definition py (s : string) : pystr :=
  utf8_decode (map N_of_ascii (list_ascii_of_string s)).

Fixpoint drop_while (p : char -> bool) (s : pystr) : pystr :=
  match s with
  | [] => []
  | c :: r => if p c then drop_while p r else s
  end.

(** [s.startswith(p)] *)
Fixpoint startswith (s p : pystr) {struct p} : bool :=
  match p, s with
  | [], _ => true
  | _ :: _, [] => false
  | a :: p', c :: s' => (c =? a) && startswith s' p'
  end.

Definition cons_head (c : char) (l : list pystr) : list pystr :=
  match l with
  | p :: ps => (c :: p) :: ps
  | [] => [[c]]
  end.

(** [s.split(sep)] for a one-character separator. *)
Fixpoint split (sep : char) (s : pystr) : list pystr :=
  match s with
  | [] => [[]]
  | c :: r => if c =? sep then [] :: split sep r else cons_head c (split sep r)
  end.

(** [s.split(sep, maxsplit=n)] for a one-character separator. *)
Fixpoint split_max (sep : char) (s : pystr) (n : nat) : list pystr :=
  match s with
  | [] => [[]]
  | c :: r =>
    match n with
    | O => [s]
    | S n' =>
      if c =? sep then [] :: split_max sep r n' else cons_head c (split_max sep r n)
    end
  end.

(** [sep.join(parts)] *)
Fixpoint join (sep : pystr) (parts : list pystr) : pystr :=
  match parts with
  | [] => []
  | [x] => x
  | x :: rest => x ++ sep ++ join sep rest
  end.

(** [s.lstrip(chars)] *)
Definition lstrip_chars (chars : pystr) (s : pystr) : pystr :=
  drop_while (fun c => existsb (N.eqb c) chars) s.

(** ** Exceptions *)

Inductive exn := ValueError | IndexError | KeyError.

Inductive result (A : Type) :=
| Ok (a : A)
| Raise (e : exn).
Arguments Ok {A} a.
Arguments Raise {A} e.

Definition bind {A B} (r : result A) (k : A -> result B) : result B :=
  match r with
  | Ok a => k a
  | Raise e => Raise e
  end.

Notation "'do' x <- r ; k" := (bind r (fun x => k))
  (at level 10, x name, r at level 100, k at level 200).

(** A list comprehension whose element expression may raise: elements are
    evaluated left to right and the first exception escapes. *)
Fixpoint comprehension {A B} (f : A -> result B) (l : list A) : result (list B) :=
  match l with
  | [] => Ok []
  | x :: r => do y <- f x ; do ys <- comprehension f r ; Ok (y :: ys)
  end.

(** [l[i]] for a non-negative literal index. *)
Definition index {A} (l : list A) (i : nat) : result A :=
  match nth_error l i with
  | Some x => Ok x
  | None => Raise IndexError
  end.

(** ** Integers as text *)

Fixpoint digits_of_uint (u : Decimal.uint) : pystr :=
  match u with
  | Nil => []
  | D0 r => 48 :: digits_of_uint r
  | D1 r => 49 :: digits_of_uint r
  | D2 r => 50 :: digits_of_uint r
  | D3 r => 51 :: digits_of_uint r
  | D4 r => 52 :: digits_of_uint r
  | D5 r => 53 :: digits_of_uint r
  | D6 r => 54 :: digits_of_uint r
  | D7 r => 55 :: digits_of_uint r
  | D8 r => 56 :: digits_of_uint r
  | D9 r => 57 :: digits_of_uint r
  end.

(** The decimal notation of a natural number and of an integer. *)
Definition decimal_text (n : N) : pystr := digits_of_uint (N.to_uint n).

Definition int_text (z : Z) : pystr :=
  if (z <? 0)%Z then 45 :: decimal_text (Z.abs_N z)
  else decimal_text (Z.abs_N z).

(** [sys.int_max_str_digits], at its default. *)
Definition int_max_str_digits : N := 4300.

(** [str(n)], which is what an f-string field [{n}] renders for an [int]:
    the decimal notation, or [ValueError] when it has more digits than the
    limit (the sign is not counted). *)
Definition str_of_int (z : Z) : result pystr :=
  if int_max_str_digits <? N.of_nat (length (decimal_text (Z.abs_N z)))
  then Raise ValueError
  else Ok (int_text z).

(** ** Regular expressions

    The fragment of [re] that the source uses, matched the way the
    interpreter does: by backtracking, greedy repetition first, the first
    success wins.  The matcher is written in continuation-passing style; the
    flag [bos] tells that the position is the beginning of the string, the
    only place where [^] holds without [re.MULTILINE].  Without that flag
    [$] holds at the end of the string and before a newline that ends it.
    An iteration of a star that consumes nothing is not repeated. *)

Inductive regex :=
| Eps
| Chr (a : char)
| Cls (p : char -> bool)
| Cat (r1 r2 : regex)
| Opt (r : regex)
| Star (r : regex)
| Bol
| Eol.

Definition Plus (r : regex) : regex := Cat r (Star r).

Fixpoint Lit (s : pystr) : regex :=
  match s with
  | [] => Eps
  | c :: r => Cat (Chr c) (Lit r)
  end.

(** Where [$] holds: at the end, and before a newline that ends the text. *)
Definition at_dollar (s : pystr) : bool :=
  match s with
  | [] => true
  | [c] => c =? 10
  | _ => false
  end.

(** The iterations of [r*]: [step] matches [r] once.  [n] bounds the number
    of iterations; each consumes a character, so the length of the text is
    enough. *)
Fixpoint star_iter {A}
    (step : bool -> pystr -> (bool -> pystr -> option A) -> option A)
    (k : bool -> pystr -> option A) (n : nat) (bos : bool) (s : pystr)
  : option A :=
  match n with
  | O => k bos s
  | S n' =>
    match
      step bos s
        (fun b s' =>
           if (length s' <? length s)%nat then star_iter step k n' b s' else None)
    with
    | Some x => Some x
    | None => k bos s
    end
  end.

Fixpoint rmatch {A} (r : regex) (bos : bool) (s : pystr)
    (k : bool -> pystr -> option A) : option A :=
  match r with
  | Eps => k bos s
  | Chr a =>
    match s with
    | c :: s' => if c =? a then k false s' else None
    | [] => None
    end
  | Cls p =>
    match s with
    | c :: s' => if p c then k false s' else None
    | [] => None
    end
  | Cat r1 r2 => rmatch r1 bos s (fun b s' => rmatch r2 b s' k)
  | Opt r1 =>
    match rmatch r1 bos s k with
    | Some x => Some x
    | None => k bos s
    end
  | Star r1 => star_iter (rmatch r1) k (length s) bos s
  | Bol => if bos then k bos s else None
  | Eol => if at_dollar s then k bos s else None
  end.

(** [re.match(pattern, s)]: a match at the beginning of [s]; the value is
    the text after the match. *)
Definition re_match (pattern : regex) (s : pystr) : option pystr :=
  rmatch pattern true s (fun _ rest => Some rest).

(** [re.sub(pattern, "", s)]: every match found by scanning from left to
    right is deleted.  An empty match deletes nothing and the scan moves on
    by one character. *)
Fixpoint sub_scan (pattern : regex) (fuel : nat) (bos : bool) (s : pystr) : pystr :=
  match fuel with
  | O => s
  | S fuel' =>
    let skip :=
      match s with
      | [] => []
      | c :: r => c :: sub_scan pattern fuel' false r
      end in
    match rmatch pattern bos s (fun _ rest => Some rest) with
    | Some rest =>
      if (length rest <? length s)%nat then sub_scan pattern fuel' false rest
      else skip
    | None => skip
    end
  end.

Definition re_sub_empty (pattern : regex) (s : pystr) : pystr :=
  sub_scan pattern (S (length s)) true s.

Record CompletedProcess := {
  returncode : Z;
  stdout : option pystr
}.

(** A commit is the two-key dict built by [get_commits_since_tag]; the keys
    are fixed at that single construction site, so it is a record. *)
Record commit := {
  message : pystr;
  hash : pystr
}.

(** The result of a process that ended with the status [rc] and printed
    [out], whatever the command. *)
Definition completed (rc : Z) (out : option pystr)
  : list pystr -> pystr -> CompletedProcess :=
  fun _ _ => {| returncode := rc; stdout := out |}.

(** A table of decimal digits outside ASCII with three of the blocks of the
    standard: Arabic-Indic (U+0660), Devanagari (U+0966) and fullwidth
    (U+FF10) digits. *)
Definition sample_decimal (c : char) : option N :=
  if (1632 <=? c) && (c <=? 1641) then Some (c - 1632)
  else if (2406 <=? c) && (c <=? 2415) then Some (c - 2406)
  else if (65296 <=? c) && (c <=? 65305) then Some (c - 65296)
  else None.

(** The white-space characters outside ASCII: U+0085, U+00A0, U+1680,
    U+2000 to U+200A, U+2028, U+2029, U+202F, U+205F and U+3000. *)
Definition unicode_space (c : char) : bool :=
  (c =? 133) || (c =? 160) || (c =? 5760)
  || ((8192 <=? c) && (c <=? 8202))
  || (c =? 8232) || (c =? 8233) || (c =? 8239) || (c =? 8287) || (c =? 12288).

Section Release.

Set Default Proof Using "Type".

(** Unicode character database, non-ASCII part: the decimal value of a code
    point of category Nd.  The table grows with the versions of the
    standard, so it is left open. *)
Variable unicode_decimal : char -> option N.

(** [Py_UNICODE_TODECIMAL]: the decimal digit value of a code point, from
    0 to 9.  An entry of the table outside this range is not a digit. *)
Definition decimal_value (c : char) : option N :=
  if c <? 128 then
    if (48 <=? c) && (c <=? 57) then Some (c - 48) else None
  else
    match unicode_decimal c with
    | Some d => if d <? 10 then Some d else None
    | None => None
    end.

(** [\d] in a [str] pattern. *)
Definition is_decimal (c : char) : bool :=
  match decimal_value c with Some _ => true | None => false end.

(** [str.isspace] of one character, also [\s] in a [str] pattern. *)
Definition is_space (c : char) : bool :=
  if c <? 128 then
    ((9 <=? c) && (c <=? 13)) || ((28 <=? c) && (c <=? 32))
  else unicode_space c.

(** [s.strip()] *)
Definition lstrip (s : pystr) : pystr := drop_while is_space s.
Definition rstrip (s : pystr) : pystr := rev (drop_while is_space (rev s)).
Definition strip (s : pystr) : pystr := rstrip (lstrip s).

(** *** [int(x)] for a [str] argument, base 10

    The interpreter maps non-ASCII white space to a blank and non-ASCII
    decimal digits to ASCII digits, leaves ASCII characters as they are,
    then skips blanks among tab, newline, vertical tab, form feed, carriage
    return and space on both sides, reads an optional sign, and reads
    digits in which single underscores may separate digits.  It counts the
    digits, leading zeros included, and refuses more than the limit. *)
Definition int_space (c : char) : bool :=
  if c <? 128 then ((9 <=? c) && (c <=? 13)) || (c =? 32)
  else unicode_space c.

Definition int_digit (c : char) : option N :=
  if c <? 128 then decimal_value c
  else if unicode_space c then None else decimal_value c.

(** Reads digits and underscores; [digits] counts the digits read so far,
    [prev_us] tells that the previous character was an underscore, [seen]
    that a digit was read.  Returns the value, the number of digits and the
    unread rest, or nothing on a misplaced underscore. *)
Fixpoint scan_digits (s : pystr) (acc digits : N) (prev_us seen : bool)
  : option (N * N * pystr) :=
  match s with
  | [] => if prev_us || negb seen then None else Some (acc, digits, [])
  | c :: r =>
    if c =? 95 then
      if prev_us || negb seen then None else scan_digits r acc digits true seen
    else
      match int_digit c with
      | Some d => scan_digits r (acc * 10 + d) (digits + 1) false true
      | None => if prev_us || negb seen then None else Some (acc, digits, s)
      end
  end.

Definition int_of_str (x : pystr) : result Z :=
  let s := drop_while int_space x in
  let '(neg, s) :=
    match s with
    | 43 :: r => (false, r)
    | 45 :: r => (true, r)
    | _ => (false, s)
    end in
  match scan_digits s 0 0 false false with
  | Some (n, digits, rest) =>
    if int_max_str_digits <? digits then Raise ValueError
    else
      match drop_while int_space rest with
      | [] => Ok (if neg then (- Z.of_N n)%Z else Z.of_N n)
      | _ => Raise ValueError
      end
  | None => Raise ValueError
  end.

(** ** [increment_version]

    The fields of an f-string are evaluated and rendered from left to
    right, each one before the next is evaluated. *)

Definition increment_version (version bump : pystr) : result pystr :=
  do parts <- comprehension int_of_str (split 46 version) ;
  if decide (bump = py "major") then
    do p0 <- index parts 0 ;
    do f0 <- str_of_int (p0 + 1) ;
    Ok (f0 ++ py ".0.0")
  else if decide (bump = py "minor") then
    do p0 <- index parts 0 ;
    do f0 <- str_of_int p0 ;
    do p1 <- index parts 1 ;
    do f1 <- str_of_int (p1 + 1) ;
    Ok (f0 ++ py "." ++ f1 ++ py ".0")
  else
    do p0 <- index parts 0 ;
    do f0 <- str_of_int p0 ;
    do p1 <- index parts 1 ;
    do f1 <- str_of_int p1 ;
    do p2 <- index parts 2 ;
    do f2 <- str_of_int (p2 + 1) ;
    Ok (f0 ++ py "." ++ f1 ++ py "." ++ f2).

(** ** [get_latest_tag] *)

(** The pattern [^v?\d+\.\d+\.\d+$]; [core_pattern] is its part after the
    optional [v]. *)
Definition core_pattern : regex :=
  Cat (Plus (Cls is_decimal)) (Cat (Chr 46)
    (Cat (Plus (Cls is_decimal)) (Cat (Chr 46)
      (Cat (Plus (Cls is_decimal)) Eol)))).

Definition semver_pattern : regex :=
  Cat Bol (Cat (Opt (Chr 118)) core_pattern).

(** The [for tag in tags] loop with its early [return]. *)
Fixpoint first_semver_tag (tags : list pystr) : option pystr :=
  match tags with
  | [] => None
  | tag :: rest =>
    match re_match semver_pattern tag with
    | Some _ => Some (lstrip_chars (py "v") tag)
    | None => first_semver_tag rest
    end
  end.

(** [stdout.strip().split("\n")] *)
Definition output_lines (out : pystr) : list pystr := split 10 (strip out).

Variable subprocess_run : list pystr -> pystr -> CompletedProcess.

(** [["git", "tag", "--sort=-v:refname"]] *)
Definition git_tag_argv : list pystr :=
  [py "git"; py "tag"; py "--sort=-v:refname"].

Definition get_latest_tag (project_root : pystr) : option pystr :=
  let result := subprocess_run git_tag_argv project_root in
  if decide (returncode result ≠ 0%Z) then None
  else
    let stdout := default [] (stdout result) in
    first_semver_tag (output_lines stdout).

(** ** [get_commits_since_tag] *)

(** One turn of the loop over the lines: [commits.append] when the line has
    at least two parts. *)
Definition harvest_line (commits : list commit) (line : pystr) : list commit :=
  let parts := split_max 124 line 2 in
  match parts with
  | p0 :: p1 :: _ => commits ++ [{| message := p0; hash := p1 |}]
  | _ => commits
  end.

(** [["git", "log", f"v{tag}..HEAD", "--pretty=format:%s|%h|%an"]] *)
Definition git_log_argv (tag : pystr) : list pystr :=
  [py "git"; py "log"; py "v" ++ tag ++ py "..HEAD";
   py "--pretty=format:%s|%h|%an"].

Definition get_commits_since_tag (tag project_root : pystr) : list commit :=
  let result := subprocess_run (git_log_argv tag) project_root in
  let stdout := default [] (stdout result) in
  if bool_decide (returncode result ≠ 0%Z) || bool_decide (strip stdout = [])
  then []
  else fold_left harvest_line (output_lines stdout) [].

(** ** [categorize_commits] *)

(** [categories[key].append(msg)]: the subscript raises [KeyError] on a
    missing key. *)
Definition dict_append (categories : gmap string (list pystr))
    (key : string) (msg : pystr) : result (gmap string (list pystr)) :=
  match categories !! key with
  | Some l => Ok (<[key := l ++ [msg]]> categories)
  | None => Raise KeyError
  end.

(** [d[key]] *)
Definition getitem (d : gmap string (list pystr)) (key : string)
  : result (list pystr) :=
  match d !! key with
  | Some l => Ok l
  | None => Raise KeyError
  end.

Definition categorize_step (categories : gmap string (list pystr))
    (c : commit) : result (gmap string (list pystr)) :=
  let msg := message c in
  if startswith msg (py "feat") then dict_append categories "feat" msg
  else if startswith msg (py "fix") then dict_append categories "fix" msg
  else if startswith msg (py "perf") then dict_append categories "perf" msg
  else if startswith msg (py "refactor") then dict_append categories "refactor" msg
  else if startswith msg (py "docs") then dict_append categories "docs" msg
  else dict_append categories "other" msg.

Fixpoint categorize_loop (commits : list commit)
    (categories : gmap string (list pystr))
  : result (gmap string (list pystr)) :=
  match commits with
  | [] => Ok categories
  | c :: rest =>
    do categories' <- categorize_step categories c ;
    categorize_loop rest categories'
  end.

Definition empty_categories : gmap string (list pystr) :=
  <["feat" := []]> (<["fix" := []]> (<["perf" := []]> (<["refactor" := []]>
    (<["docs" := []]> (<["other" := []]> ∅))))).

Definition categorize_commits (commits : list commit)
  : result (gmap string (list pystr)) :=
  categorize_loop commits empty_categories.

(** ** [generate_release_notes] *)

(** The class [[:\s]]: a colon or a white-space character. *)
Definition colon_or_space (c : char) : bool := (c =? 58) || is_space c.

(** The pattern [^token[:\s]*], for [token] one of [feat], [fix], [perf]
    and [refactor]. *)
Definition prefix_pattern (token : pystr) : regex :=
  Cat Bol (Cat (Lit token) (Star (Cls colon_or_space))).

(** One [if categories[key]: ...] block: the title, a bullet per message
    and an empty line are appended when the bucket is not empty. *)
Definition render_block (lines : list pystr) (title : pystr) (token : pystr)
    (bucket : list pystr) : list pystr :=
  match bucket with
  | [] => lines
  | _ :: _ =>
    (fold_left (fun ls msg => ls ++ [py "- " ++ re_sub_empty (prefix_pattern token) msg])
       bucket (lines ++ [title])) ++ [[]]
  end.

(** Truth value of [prev_tag]: [None] and the empty string are false. *)
Definition truthy (prev_tag : option pystr) : option pystr :=
  match prev_tag with
  | Some (c :: r) => Some (c :: r)
  | _ => None
  end.

Definition generate_release_notes (version : pystr) (prev_tag : option pystr)
    (project_root : pystr) : result pystr :=
  let lines := [py "## v" ++ version ++ [10]] in
  match truthy prev_tag with
  | Some tag =>
    let commits := get_commits_since_tag tag project_root in
    do categories <- categorize_commits commits ;
    do feat <- getitem categories "feat" ;
    let lines := render_block lines (py "## ✨ New Features" ++ [10]) (py "feat") feat in
    do fixes <- getitem categories "fix" ;
    let lines := render_block lines (py "## 🐛 Bug Fixes" ++ [10]) (py "fix") fixes in
    do perf <- getitem categories "perf" ;
    let lines := render_block lines (py "## ⚡ Performance" ++ [10]) (py "perf") perf in
    do refactor <- getitem categories "refactor" ;
    let lines :=
      render_block lines (py "## 🔧 Internal Changes" ++ [10]) (py "refactor") refactor in
    Ok (join [10] lines)
  | None => Ok (join [10] lines)
  end.

(** * Specifications *)

(** The text of the version [a.b.c]: the decimal notations of the three
    numbers, separated by dots. *)
Definition version_string (a b c : N) : pystr :=
  decimal_text a ++ py "." ++ decimal_text b ++ py "." ++ decimal_text c.

(** The least natural number that has more decimal digits than the limit
    allows: [10 ** 4300]. *)
Definition max_int_text : N := 10 ^ int_max_str_digits.

(** The number that a bump kind increments, and the version it gives. *)
Definition bumped_field (bump : pystr) (a b c : N) : N :=
  if decide (bump = py "major") then a
  else if decide (bump = py "minor") then b
  else c.

Definition bumped_version (bump : pystr) (a b c : N) : N * N * N :=
  if decide (bump = py "major") then (a + 1, 0, 0)
  else if decide (bump = py "minor") then (a, b + 1, 0)
  else (a, b, c + 1).

(** What [increment_version] does for the fields [a], [b] and [c] once they
    are read: the text of the bumped version, or [ValueError] when the
    incremented number has more digits than the limit. *)
Definition bump_result (bump : pystr) (a b c : N) : result pystr :=
  if bumped_field bump a b c + 1 <? max_int_text then
    let '(a', b', c') := bumped_version bump a b c in
    Ok (version_string a' b' c')
  else Raise ValueError.

(** Lexicographic order on (major, minor, patch). *)
Definition version_lt (v w : N * N * N) : Prop :=
  let '(a, b, c) := v in
  let '(a', b', c') := w in
  a < a' \/ (a = a' /\ (b < b' \/ (b = b' /\ c < c'))).

(** [reads_as text v]: the fields of [text] between the dots are three, and
    [int] reads in them the numbers of the version [v]. *)
Definition reads_as (text : pystr) (v : N * N * N) : Prop :=
  let '(a, b, c) := v in
  comprehension int_of_str (split 46 text) = Ok [Z.of_N a; Z.of_N b; Z.of_N c].

(** Value of a digit sequence read from the left, starting from [acc]. *)
Fixpoint uint_value (u : Decimal.uint) (acc : N) : N :=
  match u with
  | Nil => acc
  | D0 r => uint_value r (acc * 10 + 0)
  | D1 r => uint_value r (acc * 10 + 1)
  | D2 r => uint_value r (acc * 10 + 2)
  | D3 r => uint_value r (acc * 10 + 3)
  | D4 r => uint_value r (acc * 10 + 4)
  | D5 r => uint_value r (acc * 10 + 5)
  | D6 r => uint_value r (acc * 10 + 6)
  | D7 r => uint_value r (acc * 10 + 7)
  | D8 r => uint_value r (acc * 10 + 8)
  | D9 r => uint_value r (acc * 10 + 9)
  end.

Definition ascii_digit (c : char) : Prop := 48 <= c <= 57.

(** The greedy reading of [p*] followed by the continuation [k]: the
    longest run of [p] first, then shorter ones. *)
Fixpoint star_cls {A} (p : char -> bool) (bos : bool) (s : pystr)
    (k : bool -> pystr -> option A) : option A :=
  match s with
  | c :: s' =>
    if p c then
      match star_cls p false s' k with
      | Some x => Some x
      | None => k bos s
      end
    else k bos s
  | [] => k bos s
  end.

Definition bos_after (p : char -> bool) (bos : bool) (s : pystr) : bool :=
  match s with
  | c :: _ => if p c then false else bos
  | [] => bos
  end.

(** The pieces of [semver_pattern] read from left to right without giving
    characters back. *)
Definition opt_char (a : char) (s : pystr) : pystr :=
  match s with
  | c :: r => if c =? a then r else s
  | [] => s
  end.

Definition eat_char (a : char) (s : pystr) : option pystr :=
  match s with
  | c :: r => if c =? a then Some r else None
  | [] => None
  end.

Definition eat_digits (s : pystr) : option pystr :=
  match s with
  | c :: r => if is_decimal c then Some (drop_while is_decimal r) else None
  | [] => None
  end.

Definition semver_greedy (tag : pystr) : option pystr :=
  s1 ← eat_digits (opt_char 118 tag);
  s2 ← eat_char 46 s1;
  s3 ← eat_digits s2;
  s4 ← eat_char 46 s3;
  s5 ← eat_digits s4;
  if at_dollar s5 then Some s5 else None.

(** A non-empty run of decimal digits, the language of [\d+]. *)
Definition digit_run (d : pystr) : Prop :=
  d <> [] /\ Forall (fun c => is_decimal c = true) d.

(** [semver_tag tag v]: [tag] is [digits.digits.digits] with an optional
    leading [v] and nothing else, and [v] is [tag] without that [v]. *)
Inductive semver_tag : pystr -> pystr -> Prop :=
| semver_tag_bare d1 d2 d3 :
    digit_run d1 -> digit_run d2 -> digit_run d3 ->
    semver_tag (d1 ++ 46 :: d2 ++ 46 :: d3) (d1 ++ 46 :: d2 ++ 46 :: d3)
| semver_tag_v d1 d2 d3 :
    digit_run d1 -> digit_run d2 -> digit_run d3 ->
    semver_tag (118 :: d1 ++ 46 :: d2 ++ 46 :: d3) (d1 ++ 46 :: d2 ++ 46 :: d3).

Definition semver_shaped (tag : pystr) : Prop := exists v, semver_tag tag v.

(** [first_match tags r]: [r] is the bare version of the first tag of [tags]
    that is [semver_shaped], or nothing when there is none. *)
Inductive first_match (tags : list pystr) : option pystr -> Prop :=
| first_match_none :
    Forall (fun t => ~ semver_shaped t) tags -> first_match tags None
| first_match_some before tag after v :
    tags = before ++ tag :: after ->
    Forall (fun t => ~ semver_shaped t) before ->
    semver_tag tag v ->
    first_match tags (Some v).

(** The text of a list of lines, each ended by a newline. *)
Definition lines_text (lines : list pystr) : pystr :=
  flat_map (fun l => l ++ [10]) lines.

(** A tag name as the version control system prints it: not empty and free
    of white space (a newline is white space). *)
Definition tag_name (t : pystr) : Prop :=
  t <> [] /\ Forall (fun c => is_space c = false) t.

(** Absent, empty or blank output. *)
Definition blank (o : option pystr) : Prop :=
  match o with
  | None => True
  | Some s => Forall (fun c => is_space c = true) s
  end.

(** A failed query: a non-zero exit status, or no output to speak of. *)
Definition query_failed (r : CompletedProcess) : Prop :=
  returncode r <> 0%Z \/ blank (stdout r).

(** The prefixes in the order in which they are tried, and the six keys. *)
Definition priority : list string := ["feat"; "fix"; "perf"; "refactor"; "docs"].
Definition category_keys : list string := priority ++ ["other"].

(** The first category, in the order of [priority], whose name the message
    starts with; [other] when there is none. *)
Definition category_of (msg : pystr) : string :=
  default "other" (List.find (fun k => startswith msg (py k)) priority).

(** The messages of a list of commits that fall into the category [k],
    in the order of the list. *)
Definition bucket_of (k : string) (commits : list commit) : list pystr :=
  filter (fun m => category_of m = k) (message <$> commits).

(** [msg] without its first [length token] characters and without the colons
    and white space that follow them. *)
Definition strip_prefix (token msg : pystr) : pystr :=
  drop_while colon_or_space (drop (length token) msg).

(** The categories that are rendered, in order, with their heading lines. *)
Definition rendered : list (string * pystr) :=
  [ ("feat", py "## ✨ New Features");
    ("fix", py "## 🐛 Bug Fixes");
    ("perf", py "## ⚡ Performance");
    ("refactor", py "## 🔧 Internal Changes") ].

(** The elements of a section: the heading with its newline, a bullet per
    message of the bucket, an empty element; nothing for an empty bucket. *)
Definition section_lines (commits : list commit) (kh : string * pystr)
  : list pystr :=
  match bucket_of kh.1 commits with
  | [] => []
  | b =>
    (kh.2 ++ [10])
      :: ((fun m => py "- " ++ strip_prefix (py kh.1) m) <$> b) ++ [[]]
  end.

(** The release notes of a version for a list of commits. *)
Definition notes_of (version : pystr) (commits : list commit) : pystr :=
  join [10]
    ((py "## v" ++ version ++ [10]) :: flat_map (section_lines commits) rendered).

(** The categories that are never rendered. *)
Definition unrendered : list string := ["docs"; "other"].

Definition no_bar (s : pystr) : Prop := Forall (fun c => c <> 124) s.

(** [harvested lines commits]: [commits] are the commits read from [lines],
    in order.  A line without a bar gives nothing; otherwise the message is
    the text before the first bar and the hash the text between the first
    and the second bar, or up to the end when there is no second bar.  What
    follows the second bar (the author) does not appear in the commit. *)
Inductive harvested : list pystr -> list commit -> Prop :=
| harvested_nil : harvested [] []
| harvested_drop line lines cs :
    no_bar line -> harvested lines cs -> harvested (line :: lines) cs
| harvested_two m h lines cs :
    no_bar m -> no_bar h -> harvested lines cs ->
    harvested ((m ++ 124 :: h) :: lines) ({| message := m; hash := h |} :: cs)
| harvested_three m h author lines cs :
    no_bar m -> no_bar h -> harvested lines cs ->
    harvested ((m ++ 124 :: h ++ 124 :: author) :: lines)
      ({| message := m; hash := h |} :: cs).

(** The text [r] does not begin with a character of the class [p]. *)
Definition stops (p : char -> bool) (r : pystr) : Prop :=
  match r with
  | [] => True
  | c :: _ => p c = false
  end.

Definition no_newline (s : pystr) : Prop := Forall (fun c => c <> 10) s.

(** ** Further definitions: errors of [increment_version], the release
    command *)

(** The number of fields that [increment_version] reads for a bump kind:
    [parts[0]] for major, up to [parts[1]] for minor, up to [parts[2]]
    otherwise. *)
Definition fields_needed (bump : pystr) : nat :=
  if decide (bump = py "major") then 1%nat
  else if decide (bump = py "minor") then 2%nat
  else 3%nat.

(** What [increment_version] builds from the integers it read: the fields
    that it copies are rendered by their decimal notation, the incremented
    one by [str_of_int]. *)
Definition bumped (bump : pystr) (p0 p1 p2 : Z) : result pystr :=
  if decide (bump = py "major") then
    do f0 <- str_of_int (p0 + 1) ;
    Ok (f0 ++ py ".0.0")
  else if decide (bump = py "minor") then
    do f1 <- str_of_int (p1 + 1) ;
    Ok (int_text p0 ++ py "." ++ f1 ++ py ".0")
  else
    do f2 <- str_of_int (p2 + 1) ;
    Ok (int_text p0 ++ py "." ++ int_text p1 ++ py "." ++ f2).

(** [increment_version] applied [n] times with the same bump kind, each
    time to the text that the previous call returned. *)
Fixpoint bump_times (n : nat) (bump version : pystr) : result pystr :=
  match n with
  | O => Ok version
  | S n' =>
    do next <- increment_version version bump ;
    bump_times n' bump next
  end.

(** No white-space character is a decimal digit, as in every version of the
    Unicode character database. *)
Definition digits_not_space : Prop :=
  forall c, unicode_space c = true -> unicode_decimal c = None.

(** The arguments of the release command that select the version:
    [args.version], and [args.bump] when the attribute exists. *)
Record release_args := {
  arg_version : option pystr;
  arg_bump : option pystr
}.

(** The version chosen by [cmd_release] ([pdg.py], "Determine version"): the
    version argument without leading [v]s when it is given, else the latest
    tag incremented by the bump kind (patch by default), else [1.0.0].  The
    messages printed on the way are not part of the value. *)
Definition release_version (latest_tag : option pystr) (args : release_args)
  : result pystr :=
  match truthy (arg_version args) with
  | Some version_arg => Ok (lstrip_chars (py "v") version_arg)
  | None =>
    match truthy latest_tag with
    | Some tag =>
      let bump :=
        match truthy (arg_bump args) with
        | Some b => b
        | None => py "patch"
        end in
      increment_version tag bump
    | None => Ok (py "1.0.0")
    end
  end.

(** An entry of the log as the query prints it with the format
    [%s|%h|%an], and the text of a log: the lines of the entries separated
    by newlines. *)
Record log_entry := {
  subject : pystr;
  short_hash : pystr;
  author : pystr
}.

Definition log_line (e : log_entry) : pystr :=
  subject e ++ 124 :: short_hash e ++ 124 :: author e.

Definition log_text (entries : list log_entry) : pystr :=
  join [10] (log_line <$> entries).

Definition commit_of_entry (e : log_entry) : commit :=
  {| message := subject e; hash := short_hash e |}.

(** An entry that the line format can carry: no bar in the subject and in
    the hash, no newline anywhere. *)
Definition entry_ok (e : log_entry) : Prop :=
  no_bar (subject e) /\ no_bar (short_hash e) /\
  no_newline (subject e) /\ no_newline (short_hash e) /\ no_newline (author e).

(** The lines that release notes can have: the version heading, a section
    heading, a bullet, or an empty line. *)
Definition notes_line (version line : pystr) : Prop :=
  line = py "## v" ++ version \/
  line = [] \/
  (exists k label, (k, label) ∈ rendered /\ line = label) \/
  (exists text, line = py "- " ++ text).

(** * Properties *)

(** ** Text of integers *)

Lemma digits_of_uint_ascii u : Forall ascii_digit (digits_of_uint u).
Proof.
  induction u; simpl; constructor; auto; unfold ascii_digit; lia.
Qed.

Lemma digits_of_uint_inj u v : digits_of_uint u = digits_of_uint v -> u = v.
Proof.
  revert v; induction u; intros v; destruct v; simpl; intros H;
    try discriminate; try reflexivity;
    injection H as H; f_equal; now apply IHu.
Qed.

Lemma decimal_text_ascii n : Forall ascii_digit (decimal_text n).
Proof. apply digits_of_uint_ascii. Qed.

Lemma to_uint_nonnil n : N.to_uint n <> Nil.
Proof.
  destruct n as [|p]; [discriminate|].
  apply DecimalPos.Unsigned.to_uint_nonnil.
Qed.

Lemma decimal_text_nonempty n : decimal_text n <> [].
Proof.
  unfold decimal_text. pose proof (to_uint_nonnil n) as H.
  destruct (N.to_uint n); simpl; congruence.
Qed.

Lemma decimal_text_inj n m : decimal_text n = decimal_text m -> n = m.
Proof.
  intros H. now apply DecimalN.Unsigned.to_uint_inj, digits_of_uint_inj.
Qed.

Lemma uint_value_pos u p : uint_value u (Npos p) = Npos (Pos.of_uint_acc u p).
Proof.
  revert p; induction u; intros p; simpl; try reflexivity;
    rewrite <- IHu; f_equal; lia.
Qed.

Lemma uint_value_zero u : uint_value u 0 = Pos.of_uint u.
Proof.
  induction u; simpl; try reflexivity; try assumption;
    apply uint_value_pos.
Qed.

(** *** Number of digits and magnitude *)

Lemma uint_value_bounds u acc :
  acc * 10 ^ N.of_nat (length (digits_of_uint u)) <= uint_value u acc /\
  uint_value u acc < (acc + 1) * 10 ^ N.of_nat (length (digits_of_uint u)).
Proof.
  revert acc; induction u; intros acc;
    cbn [digits_of_uint length uint_value];
    [simpl; lia| ..];
    rewrite Nat2N.inj_succ, N.pow_succ_r';
    match goal with
    | |- context [uint_value u ?a] => destruct (IHu a) as [L U]
    end;
    set (P := 10 ^ N.of_nat (length (digits_of_uint u))) in *; nia.
Qed.

Lemma to_uint_head_nonzero p r : Pos.to_uint p <> D0 r.
Proof.
  intros E.
  pose proof (DecimalPos.Unsigned.to_of (Pos.to_uint p)) as H.
  rewrite DecimalPos.Unsigned.of_to in H. cbn [N.to_uint] in H.
  rewrite E, DecimalFacts.unorm_D0 in H.
  destruct (Decimal.nzhead r) eqn:En;
    [|rewrite (DecimalFacts.unorm_nzhead r) in H by (rewrite En; discriminate);
      symmetry in H; now apply DecimalFacts.nzhead_nonzero in H ..].
  assert (Hz : Decimal.unorm r = Decimal.zero)
    by now apply DecimalFacts.unorm_0.
  rewrite Hz in H. rewrite H in E.
  now apply DecimalPos.Unsigned.to_uint_nonzero in E.
Qed.

(** A number is below [10 ^ k] exactly when its decimal notation has at
    most [k] digits. *)
Lemma decimal_text_length n k :
  1 <= k -> (N.of_nat (length (decimal_text n)) <= k <-> n < 10 ^ k).
Proof.
  intros Hk. unfold decimal_text.
  pose proof (DecimalN.Unsigned.of_to n) as Hv.
  change (N.of_uint (N.to_uint n)) with (Pos.of_uint (N.to_uint n)) in Hv.
  rewrite <- uint_value_zero in Hv.
  destruct (uint_value_bounds (N.to_uint n) 0) as [_ U].
  rewrite Hv, N.mul_1_l in U.
  split.
  - intros Hlen. eapply N.lt_le_trans; [exact U|].
    apply N.pow_le_mono_r; lia.
  - intros Hn. destruct n as [|p]; [simpl; lia|].
    cbn [N.to_uint] in *.
    pose proof (to_uint_head_nonzero p) as Hhead.
    destruct (Pos.to_uint p) as [|r|r|r|r|r|r|r|r|r|r] eqn:E;
      [simpl; lia|exfalso; now apply (Hhead r)| ..];
      cbn [digits_of_uint length uint_value] in *;
      rewrite Nat2N.inj_succ;
      match type of Hv with
      | uint_value r ?a = _ => destruct (uint_value_bounds r a) as [L _]
      end;
      rewrite Hv in L;
      apply N.le_succ_l;
      (apply (N.pow_lt_mono_r_iff 10); [lia|]);
      (eapply N.le_lt_trans; [|exact Hn]);
      (eapply N.le_trans; [|exact L]);
      set (P := 10 ^ N.of_nat (length (digits_of_uint r))); nia.
Qed.

Lemma max_int_text_length n :
  (int_max_str_digits <? N.of_nat (length (decimal_text n))) =
  negb (n <? max_int_text).
Proof.
  assert (H1 : 1 <= int_max_str_digits) by (vm_compute; discriminate).
  pose proof (decimal_text_length n int_max_str_digits H1) as H.
  fold max_int_text in H.
  destruct (N.ltb_spec int_max_str_digits (N.of_nat (length (decimal_text n))))
    as [L|L];
    destruct (N.ltb_spec n max_int_text) as [M|M]; try reflexivity; exfalso.
  - apply H in M. lia.
  - apply H in L. lia.
Qed.

Lemma str_of_int_spec z :
  str_of_int z =
  if Z.abs_N z <? max_int_text then Ok (int_text z) else Raise ValueError.
Proof.
  unfold str_of_int. rewrite max_int_text_length.
  now destruct (Z.abs_N z <? max_int_text).
Qed.

Lemma str_of_N_spec n :
  str_of_int (Z.of_N n) =
  if n <? max_int_text then Ok (decimal_text n) else Raise ValueError.
Proof.
  rewrite str_of_int_spec, Zabs2N.id. unfold int_text.
  rewrite (proj2 (Z.ltb_ge _ _)) by lia. now rewrite Zabs2N.id.
Qed.

Lemma str_of_int_raise z e : str_of_int z = Raise e -> e = ValueError.
Proof.
  rewrite str_of_int_spec. destruct (_ <? _); congruence.
Qed.

Lemma str_of_int_ok z f : str_of_int z = Ok f -> f = int_text z.
Proof.
  rewrite str_of_int_spec. destruct (_ <? _); congruence.
Qed.

(** *** The numbers at the limit

    [10 ** k] is written with a one and [k] zeros, and [10 ** k - 1] with
    [k] nines. *)

Lemma digits_of_uint_zeros k : digits_of_uint (Nat.iter k D0 Nil) = repeat 48 k.
Proof. induction k as [|k IH]; simpl; [reflexivity|now rewrite IH]. Qed.

Lemma digits_of_uint_nines k : digits_of_uint (Nat.iter k D9 Nil) = repeat 57 k.
Proof. induction k as [|k IH]; simpl; [reflexivity|now rewrite IH]. Qed.

Lemma uint_value_zeros k acc :
  uint_value (Nat.iter k D0 Nil) acc = acc * 10 ^ N.of_nat k.
Proof.
  revert acc; induction k as [|k IH]; intros acc.
  - simpl. lia.
  - cbn [Nat.iter nat_rect uint_value].
    change (nat_rect _ Nil (fun _ => D0) k) with (Nat.iter k D0 Nil).
    rewrite IH, Nat2N.inj_succ, N.pow_succ_r'. lia.
Qed.

Lemma uint_value_nines k acc :
  uint_value (Nat.iter k D9 Nil) acc + 1 = (acc + 1) * 10 ^ N.of_nat k.
Proof.
  revert acc; induction k as [|k IH]; intros acc.
  - simpl. lia.
  - cbn [Nat.iter nat_rect uint_value].
    change (nat_rect _ Nil (fun _ => D9) k) with (Nat.iter k D9 Nil).
    rewrite IH, Nat2N.inj_succ, N.pow_succ_r'. lia.
Qed.

Lemma decimal_text_pow10 k :
  decimal_text (10 ^ N.of_nat k) = 49 :: repeat 48 k.
Proof.
  assert (E : N.of_uint (D1 (Nat.iter k D0 Nil)) = 10 ^ N.of_nat k).
  { change (N.of_uint (D1 (Nat.iter k D0 Nil)))
      with (Pos.of_uint (D1 (Nat.iter k D0 Nil))).
    rewrite <- uint_value_zero. cbn [uint_value].
    rewrite uint_value_zeros. lia. }
  unfold decimal_text.
  rewrite <- E, DecimalN.Unsigned.to_of.
  cbn [unorm nzhead digits_of_uint]. now rewrite digits_of_uint_zeros.
Qed.

Lemma decimal_text_pow10_pred k :
  decimal_text (10 ^ N.of_nat (S k) - 1) = repeat 57 (S k).
Proof.
  assert (E : N.of_uint (Nat.iter (S k) D9 Nil) = 10 ^ N.of_nat (S k) - 1).
  { change (N.of_uint (Nat.iter (S k) D9 Nil))
      with (Pos.of_uint (Nat.iter (S k) D9 Nil)).
    rewrite <- uint_value_zero.
    pose proof (uint_value_nines (S k) 0) as H. lia. }
  unfold decimal_text.
  rewrite <- E, DecimalN.Unsigned.to_of.
  cbn [Nat.iter nat_rect unorm nzhead].
  change (nat_rect _ Nil (fun _ => D9) k) with (Nat.iter k D9 Nil).
  cbn [digits_of_uint repeat]. now rewrite digits_of_uint_nines.
Qed.

Lemma max_int_text_large : 1000000 <= max_int_text.
Proof.
  change 1000000 with (10 ^ 6). unfold max_int_text.
  apply N.pow_le_mono_r; [discriminate|]. vm_compute. discriminate.
Qed.

(** *** Reading digits *)

Lemma int_digit_bound c d : int_digit c = Some d -> d < 10.
Proof.
  assert (G : decimal_value c = Some d -> d < 10).
  { unfold decimal_value. destruct (c <? 128).
    - destruct ((48 <=? c) && (c <=? 57)) eqn:E; [|discriminate].
      apply andb_true_iff in E as [H1 H2]. apply N.leb_le in H1, H2.
      intros [= <-]. lia.
    - destruct (unicode_decimal c) as [d'|]; [|discriminate].
      destruct (N.ltb_spec d' 10); [|discriminate]. now intros [= <-]. }
  unfold int_digit. destruct (c <? 128); [exact G|].
  destruct (unicode_space c); [discriminate|exact G].
Qed.

Lemma scan_digits_uint u acc k :
  scan_digits (digits_of_uint u) acc k false true =
  Some (uint_value u acc, k + N.of_nat (length (digits_of_uint u)), []).
Proof.
  revert acc k; induction u; intros acc k;
    cbn [digits_of_uint length uint_value];
    [simpl; now rewrite N.add_0_r| ..];
    rewrite Nat2N.inj_succ;
    replace (k + N.succ (N.of_nat (length (digits_of_uint u))))
      with (k + 1 + N.of_nat (length (digits_of_uint u))) by lia;
    rewrite <- IHu; reflexivity.
Qed.

Lemma scan_digits_uint_first u acc :
  u <> Nil ->
  scan_digits (digits_of_uint u) acc 0 false false =
  Some (uint_value u acc, N.of_nat (length (digits_of_uint u)), []).
Proof.
  destruct u; intros Hu; try congruence;
    cbn [digits_of_uint length uint_value]; rewrite Nat2N.inj_succ;
    replace (N.succ (N.of_nat (length (digits_of_uint u))))
      with (0 + 1 + N.of_nat (length (digits_of_uint u))) by lia;
    rewrite <- scan_digits_uint; reflexivity.
Qed.

(** [int] of a non-empty text of ASCII digits: its value, unless the text
    is longer than the limit. *)
Lemma int_of_str_digits u :
  u <> Nil ->
  int_of_str (digits_of_uint u) =
  if int_max_str_digits <? N.of_nat (length (digits_of_uint u))
  then Raise ValueError
  else Ok (Z.of_N (Pos.of_uint u)).
Proof.
  intros Hu. rewrite <- uint_value_zero.
  pose proof (scan_digits_uint_first u 0 Hu) as Hs.
  unfold int_of_str.
  destruct u; try congruence;
    cbn [digits_of_uint drop_while int_space N.ltb N.compare Pos.compare
         Pos.compare_cont N.leb N.eqb Pos.eqb andb orb] in *;
    rewrite Hs; cbn [drop_while]; reflexivity.
Qed.

(** [int(str(n))] for a natural number [n]. *)
Lemma int_of_str_of_N n :
  int_of_str (decimal_text n) =
  if n <? max_int_text then Ok (Z.of_N n) else Raise ValueError.
Proof.
  unfold decimal_text. rewrite int_of_str_digits by apply to_uint_nonnil.
  change (digits_of_uint (N.to_uint n)) with (decimal_text n).
  rewrite max_int_text_length.
  change (Pos.of_uint (N.to_uint n)) with (N.of_uint (N.to_uint n)).
  rewrite DecimalN.Unsigned.of_to. now destruct (n <? max_int_text).
Qed.

Lemma scan_digits_bound s acc k prev_us seen n k' rest :
  scan_digits s acc k prev_us seen = Some (n, k', rest) ->
  acc < 10 ^ k -> n < 10 ^ k'.
Proof.
  revert acc k prev_us seen.
  induction s as [|c s IH]; intros acc k prev_us seen; cbn [scan_digits].
  - destruct (prev_us || negb seen); [discriminate|]. congruence.
  - destruct (c =? 95).
    + destruct (prev_us || negb seen); [discriminate|]. apply IH.
    + destruct (int_digit c) as [d|] eqn:Ed.
      * intros Hs Hacc. apply (IH _ _ _ _ Hs).
        apply int_digit_bound in Ed.
        rewrite N.add_1_r, N.pow_succ_r'. lia.
      * destruct (prev_us || negb seen); [discriminate|]. congruence.
Qed.

(** What [int] returns has at most as many digits as the limit allows. *)
Lemma int_of_str_ok_bound x z : int_of_str x = Ok z -> Z.abs_N z < max_int_text.
Proof.
  unfold int_of_str.
  destruct (match drop_while int_space x with
            | 43 :: r => (false, r)
            | 45 :: r => (true, r)
            | _ => (false, drop_while int_space x)
            end) as [neg s].
  destruct (scan_digits s 0 0 false false) as [[[n k] rest]|] eqn:Es;
    [|discriminate].
  destruct (N.ltb_spec int_max_str_digits k) as [|Hk]; [discriminate|].
  destruct (drop_while int_space rest); [|discriminate].
  intros [= <-].
  assert (Hn : n < 10 ^ k)
    by (apply (scan_digits_bound _ _ _ _ _ _ _ _ Es); simpl; lia).
  assert (Hmax : 10 ^ k <= max_int_text)
    by (apply N.pow_le_mono_r; [lia|exact Hk]).
  destruct neg; [rewrite Zabs2N.inj_opp|]; rewrite Zabs2N.id; lia.
Qed.

Lemma str_of_int_of_str x z : int_of_str x = Ok z -> str_of_int z = Ok (int_text z).
Proof.
  intros H. rewrite str_of_int_spec.
  now rewrite (proj2 (N.ltb_lt _ _) (int_of_str_ok_bound x z H)).
Qed.

(** ** Splitting *)

Lemma split_no_sep sep d :
  Forall (fun c => c <> sep) d -> split sep d = [d].
Proof.
  induction 1 as [|c d Hc _ IH]; simpl; [reflexivity|].
  destruct (N.eqb_spec c sep); [contradiction|]. now rewrite IH.
Qed.

Lemma split_app_sep sep d r :
  Forall (fun c => c <> sep) d -> split sep (d ++ sep :: r) = d :: split sep r.
Proof.
  induction 1 as [|c d Hc _ IH]; simpl.
  - now rewrite N.eqb_refl.
  - destruct (N.eqb_spec c sep); [contradiction|]. now rewrite IH.
Qed.

Lemma ascii_digit_not_dot d :
  Forall ascii_digit d -> Forall (fun c => c <> 46) d.
Proof.
  intros H. eapply Forall_impl; [exact H|]. unfold ascii_digit. lia.
Qed.

Lemma split_version_string a b c :
  split 46 (version_string a b c) =
  [decimal_text a; decimal_text b; decimal_text c].
Proof.
  unfold version_string. change (py ".") with [46]. simpl app.
  rewrite split_app_sep by apply ascii_digit_not_dot, decimal_text_ascii.
  rewrite split_app_sep by apply ascii_digit_not_dot, decimal_text_ascii.
  rewrite split_no_sep by apply ascii_digit_not_dot, decimal_text_ascii.
  reflexivity.
Qed.

(** ** [increment_version] *)

Lemma parse_version_string a b c :
  a < max_int_text -> b < max_int_text -> c < max_int_text ->
  comprehension int_of_str (split 46 (version_string a b c)) =
  Ok [Z.of_N a; Z.of_N b; Z.of_N c].
Proof.
  intros Ha Hb Hc. rewrite split_version_string. cbn [comprehension].
  rewrite !int_of_str_of_N.
  apply N.ltb_lt in Ha, Hb, Hc. now rewrite Ha, Hb, Hc.
Qed.

Lemma version_string_inj a b c a' b' c' :
  version_string a b c = version_string a' b' c' ->
  (a, b, c) = (a', b', c').
Proof.
  intros H. pose proof (split_version_string a b c) as P.
  rewrite H, split_version_string in P.
  injection P as Ha Hb Hc.
  apply decimal_text_inj in Ha, Hb, Hc. congruence.
Qed.

(** [increment_version] on the text of a version of natural numbers: every
    field must be within the limit of [int], and the incremented number
    within the limit of the rendering. *)
Lemma increment_version_spec a b c bump :
  increment_version (version_string a b c) bump =
  if (a <? max_int_text) && (b <? max_int_text) && (c <? max_int_text)
  then bump_result bump a b c
  else Raise ValueError.
Proof.
  unfold increment_version. rewrite split_version_string.
  cbn [comprehension]. rewrite !int_of_str_of_N.
  destruct (a <? max_int_text) eqn:Ha; [|reflexivity].
  destruct (b <? max_int_text) eqn:Hb; [|reflexivity].
  destruct (c <? max_int_text) eqn:Hc; [|reflexivity].
  cbn [bind index nth_error andb].
  unfold bump_result, bumped_field, bumped_version.
  repeat case_decide;
    change 1%Z with (Z.of_N 1);
    rewrite <- N2Z.inj_add, !str_of_N_spec, ?Ha, ?Hb; cbn [bind];
    match goal with
    | |- context [?n + 1 <? max_int_text] => destruct (n + 1 <? max_int_text)
    end; reflexivity.
Qed.

Lemma increment_version_within a b c bump :
  a < max_int_text -> b < max_int_text -> c < max_int_text ->
  bumped_field bump a b c + 1 < max_int_text ->
  let '(a', b', c') := bumped_version bump a b c in
  increment_version (version_string a b c) bump = Ok (version_string a' b' c').
Proof.
  intros Ha Hb Hc Hf. rewrite increment_version_spec.
  apply N.ltb_lt in Ha, Hb, Hc, Hf. rewrite Ha, Hb, Hc. cbn [andb].
  unfold bump_result. rewrite Hf.
  now destruct (bumped_version bump a b c) as [[a' b'] c'].
Qed.

Lemma increment_version_major a b c :
  a < max_int_text -> b < max_int_text -> c < max_int_text ->
  a + 1 < max_int_text ->
  increment_version (version_string a b c) (py "major")
  = Ok (version_string (a + 1) 0 0).
Proof.
  intros Ha Hb Hc.
  pose proof (increment_version_within a b c (py "major") Ha Hb Hc) as G.
  unfold bumped_field, bumped_version in G.
  rewrite !decide_True in G by reflexivity. exact G.
Qed.

Lemma increment_version_minor a b c :
  a < max_int_text -> b < max_int_text -> c < max_int_text ->
  b + 1 < max_int_text ->
  increment_version (version_string a b c) (py "minor")
  = Ok (version_string a (b + 1) 0).
Proof.
  intros Ha Hb Hc.
  pose proof (increment_version_within a b c (py "minor") Ha Hb Hc) as G.
  unfold bumped_field, bumped_version in G.
  rewrite !(decide_False (P := py "minor" = py "major")) in G
    by (vm_compute; discriminate).
  rewrite !decide_True in G by reflexivity. exact G.
Qed.

Lemma increment_version_other a b c bump :
  bump <> py "major" -> bump <> py "minor" ->
  a < max_int_text -> b < max_int_text -> c < max_int_text ->
  c + 1 < max_int_text ->
  increment_version (version_string a b c) bump
  = Ok (version_string a b (c + 1)).
Proof.
  intros Hmaj Hmin Ha Hb Hc.
  pose proof (increment_version_within a b c bump Ha Hb Hc) as G.
  unfold bumped_field, bumped_version in G.
  rewrite !(decide_False (P := bump = py "major")) in G by exact Hmaj.
  rewrite !(decide_False (P := bump = py "minor")) in G by exact Hmin.
  exact G.
Qed.

Lemma reads_as_version_string a b c :
  a < max_int_text -> b < max_int_text -> c < max_int_text ->
  reads_as (version_string a b c) (a, b, c).
Proof. apply parse_version_string. Qed.

Lemma max_int_text_pos : 0 < max_int_text.
Proof. unfold max_int_text. apply N.neq_0_lt_0, N.pow_nonzero. discriminate. Qed.

(** The same for digit texts that are not in canonical form, such as
    [01.2.003]: the fields are read by value, and the limit of [int] bears
    on the number of digits that are written.  The result is the text of
    the bumped version, or [ValueError] when the incremented number has more
    than 4300 digits.  From [01.002.3] the three bumps give [1.2.4], [1.3.0]
    and [2.0.0]. *)
Theorem increment_version_digits (u1 u2 u3 : Decimal.uint) bump :
  u1 <> Nil -> u2 <> Nil -> u3 <> Nil ->
  N.of_nat (length (digits_of_uint u1)) <= int_max_str_digits ->
  N.of_nat (length (digits_of_uint u2)) <= int_max_str_digits ->
  N.of_nat (length (digits_of_uint u3)) <= int_max_str_digits ->
  increment_version
    (digits_of_uint u1 ++ 46 :: digits_of_uint u2 ++ 46 :: digits_of_uint u3)
    bump =
  bump_result bump (N.of_uint u1) (N.of_uint u2) (N.of_uint u3) /\
  increment_version (py "01.002.3") (py "patch") = Ok (py "1.2.4") /\
  increment_version (py "01.002.3") (py "minor") = Ok (py "1.3.0") /\
  increment_version (py "01.002.3") (py "major") = Ok (py "2.0.0").
Proof.
  intros H1 H2 H3 L1 L2 L3.
  split; [|repeat split; vm_compute; reflexivity].
  assert (E : forall u, u <> Nil ->
            N.of_nat (length (digits_of_uint u)) <= int_max_str_digits ->
            int_of_str (digits_of_uint u) = Ok (Z.of_N (N.of_uint u))).
  { intros u Hu Lu. rewrite int_of_str_digits by exact Hu.
    now rewrite (proj2 (N.ltb_ge _ _) Lu). }
  assert (B : forall u, u <> Nil ->
            N.of_nat (length (digits_of_uint u)) <= int_max_str_digits ->
            (N.of_uint u <? max_int_text) = true).
  { intros u Hu Lu. apply N.ltb_lt.
    pose proof (int_of_str_ok_bound _ _ (E u Hu Lu)) as Hb.
    now rewrite Zabs2N.id in Hb. }
  unfold increment_version.
  rewrite split_app_sep by apply ascii_digit_not_dot, digits_of_uint_ascii.
  rewrite split_app_sep by apply ascii_digit_not_dot, digits_of_uint_ascii.
  rewrite split_no_sep by apply ascii_digit_not_dot, digits_of_uint_ascii.
  cbn [comprehension]. rewrite !E by assumption.
  cbn [bind index nth_error].
  unfold bump_result, bumped_field, bumped_version.
  repeat case_decide;
    change 1%Z with (Z.of_N 1);
    rewrite <- N2Z.inj_add, !str_of_N_spec, ?(B u1), ?(B u2) by auto;
    cbn [bind];
    match goal with
    | |- context [?n + 1 <? max_int_text] => destruct (n + 1 <? max_int_text)
    end; reflexivity.
Qed.

(** C3, amended.  For every version text [a.b.c] of three natural numbers
    of at most 4300 digits each (numbers below [10 ** 4300]),
    [increment_version] returns [(a+1).0.0] for the bump kind [major],
    [a.(b+1).0] for [minor], and [a.b.(c+1)] for [patch] and for every other
    bump kind, provided the incremented number has at most 4300 digits too;
    the three examples of the test suite are instances. *)
Theorem increment_version_bump :
  (forall a b c : N,
     a < max_int_text -> b < max_int_text -> c < max_int_text ->
     (a + 1 < max_int_text ->
      increment_version (version_string a b c) (py "major")
        = Ok (version_string (a + 1) 0 0)) /\
     (b + 1 < max_int_text ->
      increment_version (version_string a b c) (py "minor")
        = Ok (version_string a (b + 1) 0)) /\
     (c + 1 < max_int_text ->
      increment_version (version_string a b c) (py "patch")
        = Ok (version_string a b (c + 1))) /\
     (c + 1 < max_int_text ->
      forall bump, bump <> py "major" -> bump <> py "minor" ->
        increment_version (version_string a b c) bump
          = Ok (version_string a b (c + 1)))) /\
  increment_version (py "1.0.0") (py "patch") = Ok (py "1.0.1") /\
  increment_version (py "1.2.3") (py "minor") = Ok (py "1.3.0") /\
  increment_version (py "1.2.3") (py "major") = Ok (py "2.0.0").
Proof.
  split; [|repeat split; vm_compute; reflexivity].
  intros a b c Ha Hb Hc. repeat split.
  - now apply increment_version_major.
  - now apply increment_version_minor.
  - apply increment_version_other;
      [vm_compute; discriminate|vm_compute; discriminate|assumption ..].
  - intros H bump Hmaj Hmin. now apply increment_version_other.
Qed.

(** C2, amended.  For every version [(a, b, c)] of natural numbers of at
    most 4300 digits each and every bump kind whose incremented number has
    at most 4300 digits too, [increment_version] returns the text of a
    version strictly greater in the lexicographic order of the triple.  The
    triples are those that [int] reads between the dots of the two
    texts. *)
Theorem increment_version_strictly_greater (a b c : N) (bump : pystr) :
  a < max_int_text -> b < max_int_text -> c < max_int_text ->
  bumped_field bump a b c + 1 < max_int_text ->
  exists out a' b' c',
    increment_version (version_string a b c) bump = Ok out /\
    out = version_string a' b' c' /\
    reads_as (version_string a b c) (a, b, c) /\
    reads_as out (a', b', c') /\
    version_lt (a, b, c) (a', b', c').
Proof.
  intros Ha Hb Hc Hf.
  pose proof (increment_version_within a b c bump Ha Hb Hc Hf) as G.
  pose proof max_int_text_pos as H0.
  unfold bumped_field, bumped_version in *.
  repeat case_decide; eexists _, _, _, _;
    (split; [exact G|]); (split; [reflexivity|]);
    (split; [now apply reads_as_version_string|]);
    (split; [now apply reads_as_version_string|]); simpl; lia.
Qed.

(** ** The matcher *)

Lemma star_iter_cls {A} p (k : bool -> pystr -> option A) n bos s :
  (length s <= n)%nat ->
  star_iter (rmatch (Cls p)) k n bos s = star_cls p bos s k.
Proof.
  revert bos s; induction n as [|n IH]; intros bos s Hn.
  - destruct s; [reflexivity|simpl in Hn; lia].
  - destruct s as [|c s']; [reflexivity|].
    cbn [star_iter rmatch star_cls]. destruct (p c); [|reflexivity].
    assert (Hlt : (length s' <? length (c :: s'))%nat = true)
      by (apply Nat.ltb_lt; simpl; lia).
    rewrite Hlt, IH by (simpl in Hn; lia). reflexivity.
Qed.

Lemma rmatch_star_cls {A} p bos s (k : bool -> pystr -> option A) :
  rmatch (Star (Cls p)) bos s k = star_cls p bos s k.
Proof. apply star_iter_cls. lia. Qed.

(** When the continuation succeeds after the longest run, that is the
    match. *)
Lemma star_cls_longest {A} p bos s (k : bool -> pystr -> option A) x :
  k (bos_after p bos s) (drop_while p s) = Some x ->
  star_cls p bos s k = Some x.
Proof.
  revert bos; induction s as [|c s' IH]; intros bos; simpl; [auto|].
  destruct (p c) eqn:Hc; [|auto].
  intros Hk. rewrite (IH false); [reflexivity|].
  destruct s' as [|c' s'']; simpl in *; [exact Hk|].
  destruct (p c'); exact Hk.
Qed.

(** When the continuation fails in front of every character of the class,
    only the longest run is left to it. *)
Lemma star_cls_only_longest {A} p bos s (k : bool -> pystr -> option A) :
  (forall b c r, p c = true -> k b (c :: r) = None) ->
  star_cls p bos s k = k (bos_after p bos s) (drop_while p s).
Proof.
  intros Hk. revert bos; induction s as [|c s' IH]; intros bos; simpl; [auto|].
  destruct (p c) eqn:Hc; [|auto].
  rewrite (IH false), (Hk bos c s' Hc).
  destruct s' as [|c' s'']; simpl.
  - now destruct (k false []).
  - destruct (p c'); now destruct (k false _).
Qed.

Lemma rmatch_cat {A} r1 r2 b s (k : bool -> pystr -> option A) :
  rmatch (Cat r1 r2) b s k = rmatch r1 b s (fun b' s' => rmatch r2 b' s' k).
Proof. reflexivity. Qed.

Lemma rmatch_chr {A} a b s (k : bool -> pystr -> option A) :
  rmatch (Chr a) b s k =
  match eat_char a s with Some s' => k false s' | None => None end.
Proof. destruct s as [|c s']; simpl; [reflexivity|]. now destruct (c =? a). Qed.

Lemma rmatch_cls_cons {A} p b c s (k : bool -> pystr -> option A) :
  rmatch (Cls p) b (c :: s) k = if p c then k false s else None.
Proof. reflexivity. Qed.

Lemma is_decimal_ascii c :
  is_decimal c = true -> c <> 118 /\ c <> 46 /\ c <> 10.
Proof.
  intros H. repeat split; intros ->; vm_compute in H; discriminate.
Qed.

Lemma bos_after_false p s : bos_after p false s = false.
Proof. destruct s as [|c s']; simpl; [reflexivity|]. now destruct (p c). Qed.

(** [\d+] followed by [R], when [R] cannot start with a digit. *)
Lemma rmatch_plus_digits {A} R b s (k : bool -> pystr -> option A) :
  (forall b' c r, is_decimal c = true -> rmatch R b' (c :: r) k = None) ->
  rmatch (Cat (Plus (Cls is_decimal)) R) b s k =
  match eat_digits s with Some s' => rmatch R false s' k | None => None end.
Proof.
  intros HR. unfold Plus. rewrite !rmatch_cat.
  destruct s as [|c s']; [reflexivity|].
  rewrite rmatch_cls_cons. cbn [eat_digits].
  destruct (is_decimal c); [|reflexivity].
  rewrite rmatch_star_cls.
  rewrite star_cls_only_longest by (intros; now apply HR).
  now rewrite bos_after_false.
Qed.

Lemma rmatch_core b s :
  rmatch core_pattern b s (fun _ rest => Some rest) =
  (s1 ← eat_digits s; s2 ← eat_char 46 s1; s3 ← eat_digits s2;
   s4 ← eat_char 46 s3; s5 ← eat_digits s4;
   if at_dollar s5 then Some s5 else None).
Proof.
  assert (Hdot : forall {A} R (k : bool -> pystr -> option A) b' c r,
            is_decimal c = true ->
            rmatch (Cat (Chr 46) R) b' (c :: r) k = None).
  { intros A R k b' c r Hc. rewrite rmatch_cat, rmatch_chr. simpl.
    destruct (N.eqb_spec c 46); [|reflexivity].
    now apply is_decimal_ascii in Hc. }
  unfold core_pattern.
  rewrite rmatch_plus_digits by (intros; now apply Hdot).
  destruct (eat_digits s) as [s1|]; [|reflexivity]. cbn [mbind option_bind].
  rewrite rmatch_cat, rmatch_chr.
  destruct (eat_char 46 s1) as [s2|]; [|reflexivity]. cbn [mbind option_bind].
  rewrite rmatch_plus_digits by (intros; now apply Hdot).
  destruct (eat_digits s2) as [s3|]; [|reflexivity]. cbn [mbind option_bind].
  rewrite rmatch_cat, rmatch_chr.
  destruct (eat_char 46 s3) as [s4|]; [|reflexivity]. cbn [mbind option_bind].
  rewrite rmatch_plus_digits.
  2:{ intros b' c r Hc. cbn [rmatch at_dollar].
      destruct r; [|reflexivity].
      destruct (N.eqb_spec c 10); [|reflexivity].
      now apply is_decimal_ascii in Hc. }
  destruct (eat_digits s4) as [s5|]; reflexivity.
Qed.

Lemma re_match_semver tag : re_match semver_pattern tag = semver_greedy tag.
Proof.
  unfold re_match, semver_pattern, semver_greedy.
  rewrite rmatch_cat. cbn [rmatch]. fold core_pattern.
  destruct tag as [|c s'].
  - now rewrite rmatch_core.
  - cbn [opt_char]. destruct (N.eqb_spec c 118) as [->|Hc].
    + rewrite !rmatch_core. cbn [eat_digits].
      assert (Hv : is_decimal 118 = false) by reflexivity.
      rewrite Hv. cbn [mbind option_bind].
      now destruct (_ ≫= _).
    + now rewrite rmatch_core.
Qed.

(** ** Runs of a character class *)

Lemma drop_while_decomp p s :
  exists d, Forall (fun c => p c = true) d /\ s = d ++ drop_while p s
            /\ stops p (drop_while p s).
Proof.
  induction s as [|c s' (d & Hd & Hs & Hstop)]; simpl.
  - exists []. repeat split. constructor.
  - destruct (p c) eqn:Hc.
    + exists (c :: d). repeat split; [now constructor| |exact Hstop].
      simpl. now rewrite <- Hs.
    + exists []. repeat split; [constructor|exact Hc].
Qed.

Lemma drop_while_app p d r :
  Forall (fun c => p c = true) d -> stops p r -> drop_while p (d ++ r) = r.
Proof.
  induction 1 as [|c d Hc _ IH]; intros Hr; simpl.
  - destruct r as [|c r']; [reflexivity|]. simpl in *. now rewrite Hr.
  - rewrite Hc. now apply IH.
Qed.

Lemma eat_digits_Some s r :
  eat_digits s = Some r -> exists d, digit_run d /\ s = d ++ r.
Proof.
  destruct s as [|c s']; simpl; [discriminate|].
  destruct (is_decimal c) eqn:Hc; [|discriminate].
  intros [= <-].
  destruct (drop_while_decomp is_decimal s') as (d & Hd & Hs & _).
  exists (c :: d). split; [split; [discriminate|now constructor]|].
  simpl. now rewrite <- Hs.
Qed.

Lemma eat_digits_app d r :
  digit_run d -> stops is_decimal r -> eat_digits (d ++ r) = Some r.
Proof.
  intros [Hne Hd] Hr. destruct Hd as [|c d Hc Hd]; [congruence|].
  simpl. rewrite Hc. f_equal. now apply drop_while_app.
Qed.

Lemma eat_char_Some a s r : eat_char a s = Some r -> s = a :: r.
Proof.
  destruct s as [|c s']; simpl; [discriminate|].
  destruct (N.eqb_spec c a); [|discriminate]. now intros [= <-]; subst.
Qed.

Lemma digit_run_head d r :
  digit_run d -> exists c r', d ++ r = c :: r' /\ is_decimal c = true.
Proof.
  intros [Hne Hd]. destruct Hd as [|c d Hc Hd]; [congruence|].
  now exists c, (d ++ r).
Qed.

(** ** The pattern of [get_latest_tag] *)

Lemma semver_greedy_sound tag e :
  semver_greedy tag = Some e ->
  exists t v, semver_tag t v /\ tag = t ++ e /\ (e = [] \/ e = [10]).
Proof.
  unfold semver_greedy. intros H.
  destruct (eat_digits (opt_char 118 tag)) as [s1|] eqn:E1; [|discriminate].
  cbn [mbind option_bind] in H.
  destruct (eat_char 46 s1) as [s2|] eqn:E2; [|discriminate].
  cbn [mbind option_bind] in H.
  destruct (eat_digits s2) as [s3|] eqn:E3; [|discriminate].
  cbn [mbind option_bind] in H.
  destruct (eat_char 46 s3) as [s4|] eqn:E4; [|discriminate].
  cbn [mbind option_bind] in H.
  destruct (eat_digits s4) as [s5|] eqn:E5; [|discriminate].
  cbn [mbind option_bind] in H.
  destruct (at_dollar s5) eqn:E6; [|discriminate]. injection H as ->.
  apply eat_digits_Some in E1 as (d1 & Hd1 & E1).
  apply eat_char_Some in E2 as ->.
  apply eat_digits_Some in E3 as (d2 & Hd2 & ->).
  apply eat_char_Some in E4 as ->.
  apply eat_digits_Some in E5 as (d3 & Hd3 & ->).
  assert (He : e = [] \/ e = [10]).
  { destruct e as [|c [|]]; simpl in E6; try discriminate; [now left|].
    apply N.eqb_eq in E6 as ->. now right. }
  assert (Hcore : opt_char 118 tag = (d1 ++ 46 :: d2 ++ 46 :: d3) ++ e)
    by (rewrite E1, <- !app_assoc; simpl; now rewrite <- !app_assoc).
  destruct tag as [|c s']; simpl in Hcore.
  - destruct (digit_run_head d1 (46 :: d2 ++ 46 :: d3) Hd1) as (? & ? & Hx & _).
    rewrite Hx in Hcore. discriminate.
  - destruct (N.eqb_spec c 118) as [->|Hc].
    + exists (118 :: d1 ++ 46 :: d2 ++ 46 :: d3), (d1 ++ 46 :: d2 ++ 46 :: d3).
      split; [now constructor|]. split; [|exact He]. simpl. now rewrite Hcore.
    + exists (d1 ++ 46 :: d2 ++ 46 :: d3), (d1 ++ 46 :: d2 ++ 46 :: d3).
      split; [now constructor|]. now split.
Qed.

Lemma semver_core_greedy d1 d2 d3 :
  digit_run d1 -> digit_run d2 -> digit_run d3 ->
  (s1 ← eat_digits (d1 ++ 46 :: d2 ++ 46 :: d3);
   s2 ← eat_char 46 s1; s3 ← eat_digits s2; s4 ← eat_char 46 s3;
   s5 ← eat_digits s4; if at_dollar s5 then Some s5 else None) = Some [].
Proof.
  intros H1 H2 H3.
  rewrite eat_digits_app by (auto; reflexivity). cbn.
  rewrite eat_digits_app by (auto; reflexivity). cbn.
  rewrite <- (app_nil_r d3), eat_digits_app by (auto; reflexivity).
  reflexivity.
Qed.

Lemma semver_greedy_complete t v : semver_tag t v -> semver_greedy t = Some [].
Proof.
  unfold semver_greedy. intros [d1 d2 d3 H1 H2 H3|d1 d2 d3 H1 H2 H3].
  - destruct (digit_run_head d1 (46 :: d2 ++ 46 :: d3) H1) as (c & r & Hx & Hc).
    assert (Ho : opt_char 118 (d1 ++ 46 :: d2 ++ 46 :: d3)
                 = d1 ++ 46 :: d2 ++ 46 :: d3).
    { rewrite Hx. simpl. destruct (N.eqb_spec c 118); [|reflexivity].
      now apply is_decimal_ascii in Hc. }
    rewrite Ho. now apply semver_core_greedy.
  - cbn [opt_char N.eqb Pos.eqb]. now apply semver_core_greedy.
Qed.

Lemma semver_match_shaped tag :
  no_newline tag ->
  (is_Some (re_match semver_pattern tag) <-> semver_shaped tag).
Proof.
  intros Hnl. rewrite re_match_semver. split.
  - intros [e He]. apply semver_greedy_sound in He as (t & v & Ht & -> & [->| ->]).
    + rewrite app_nil_r. now exists v.
    + exfalso. apply Forall_app in Hnl as [_ Hnl].
      inversion Hnl; congruence.
  - intros [v Hv]. rewrite (semver_greedy_complete _ _ Hv). now eexists.
Qed.

Lemma lstrip_v_semver t v : semver_tag t v -> lstrip_chars (py "v") t = v.
Proof.
  unfold lstrip_chars. change (py "v") with [118].
  assert (Hstop : forall d r, digit_run d ->
            drop_while (fun c => existsb (N.eqb c) [118]) (d ++ r) = d ++ r).
  { intros d r Hd. destruct (digit_run_head d r Hd) as (c & r' & -> & Hc).
    cbn [drop_while existsb]. destruct (N.eqb_spec c 118); [|reflexivity].
    now apply is_decimal_ascii in Hc. }
  intros [d1 d2 d3 H1 H2 H3|d1 d2 d3 H1 H2 H3].
  - now apply Hstop.
  - cbn [drop_while existsb N.eqb Pos.eqb orb]. now apply Hstop.
Qed.

Lemma first_match_cons t tags r :
  ~ semver_shaped t -> first_match tags r -> first_match (t :: tags) r.
Proof.
  intros Ht [Hall|before tag after v -> Hb Hv].
  - constructor. now constructor.
  - apply (first_match_some _ (t :: before) tag after v); auto.
Qed.

Lemma first_semver_tag_spec tags :
  Forall no_newline tags -> first_match tags (first_semver_tag tags).
Proof.
  induction 1 as [|t tags Ht _ IH]; simpl.
  - constructor. constructor.
  - pose proof (semver_match_shaped t Ht) as Hiff.
    destruct (re_match semver_pattern t) as [e|].
    + destruct (proj1 Hiff) as [v Hv]; [now eexists|].
      rewrite (lstrip_v_semver _ _ Hv).
      now apply (first_match_some _ [] t tags v).
    + apply first_match_cons; [|exact IH].
      intros Hs. apply Hiff in Hs. now destruct Hs.
Qed.

Lemma split_pieces sep s : Forall (Forall (fun c => c <> sep)) (split sep s).
Proof.
  induction s as [|c s' IH]; simpl.
  - repeat constructor.
  - destruct (N.eqb_spec c sep) as [->|Hc].
    + constructor; [constructor|exact IH].
    + destruct IH as [|p ps Hp Hps]; simpl.
      * repeat constructor. exact Hc.
      * constructor; [now constructor|exact Hps].
Qed.

(** ** Stripping *)

Lemma lstrip_stops s : stops is_space s -> lstrip s = s.
Proof.
  destruct s as [|c s']; [reflexivity|]. unfold lstrip. simpl.
  now intros ->.
Qed.

Lemma rstrip_snoc_space s c : is_space c = true -> rstrip (s ++ [c]) = rstrip s.
Proof. intros Hc. unfold rstrip. rewrite rev_unit. simpl. now rewrite Hc. Qed.

Lemma rstrip_snoc_nonspace s c :
  is_space c = false -> rstrip (s ++ [c]) = s ++ [c].
Proof.
  intros Hc. unfold rstrip. rewrite rev_unit. simpl. rewrite Hc.
  change (c :: rev s) with (rev [c] ++ rev s).
  now rewrite <- rev_app_distr, rev_involutive.
Qed.

Lemma drop_while_all p s :
  Forall (fun c => p c = true) s -> drop_while p s = [].
Proof. induction 1 as [|c s' Hc _ IH]; simpl; [reflexivity|]. now rewrite Hc. Qed.

Lemma strip_blank s : Forall (fun c => is_space c = true) s -> strip s = [].
Proof.
  intros H. unfold strip, lstrip. now rewrite drop_while_all.
Qed.

Lemma strip_default_blank o : blank o -> strip (default [] o) = [].
Proof. destruct o as [s|]; simpl; [apply strip_blank|reflexivity]. Qed.

(** ** Lines of an output *)

Lemma lines_text_join l ls :
  lines_text (l :: ls) = join [10] (l :: ls) ++ [10].
Proof.
  revert l; induction ls as [|l' ls IH]; intros l.
  - simpl. now rewrite app_nil_r.
  - change (lines_text (l :: l' :: ls)) with ((l ++ [10]) ++ lines_text (l' :: ls)).
    rewrite IH. cbn [join]. now rewrite <- !app_assoc.
Qed.

Lemma join_last l ls :
  Forall tag_name (l :: ls) ->
  exists s c, join [10] (l :: ls) = s ++ [c] /\ is_space c = false.
Proof.
  revert l; induction ls as [|l' ls IH]; intros l Hall.
  - inversion Hall as [|? ? [Hne Hl] _]; subst. cbn [join].
    destruct (exists_last Hne) as (s & c & ->).
    exists s, c. split; [reflexivity|].
    apply Forall_app in Hl as [_ Hl]. now inversion Hl.
  - inversion Hall as [|? ? _ Hrest]; subst.
    destruct (IH l' Hrest) as (s & c & Hs & Hc).
    exists (l ++ [10] ++ s), c. split; [|exact Hc].
    cbn [join] in *. rewrite Hs. now rewrite <- !app_assoc.
Qed.

Lemma split_join ls l :
  Forall (Forall (fun c => c <> 10)) (l :: ls) ->
  split 10 (join [10] (l :: ls)) = l :: ls.
Proof.
  revert l; induction ls as [|l' ls IH]; intros l Hall.
  - cbn [join]. apply split_no_sep. now inversion Hall.
  - inversion Hall as [|? ? Hl Hrest]; subst.
    change (join [10] (l :: l' :: ls)) with (l ++ 10 :: join [10] (l' :: ls)).
    rewrite split_app_sep by exact Hl. now rewrite IH.
Qed.

Lemma tag_name_no_newline t : tag_name t -> Forall (fun c => c <> 10) t.
Proof.
  intros [_ H]. eapply Forall_impl; [exact H|].
  intros c Hc ->. discriminate Hc.
Qed.

(** The lines that the code sees are the printed names. *)
Lemma output_lines_text l ls :
  Forall tag_name (l :: ls) -> output_lines (lines_text (l :: ls)) = l :: ls.
Proof.
  intros Hall. unfold output_lines, strip.
  rewrite lines_text_join.
  destruct (join_last l ls Hall) as (s & c & Hs & Hc).
  assert (Hl : lstrip (join [10] (l :: ls) ++ [10]) = join [10] (l :: ls) ++ [10]).
  { apply lstrip_stops. inversion Hall as [|? ? [Hne Hsp] _]; subst.
    destruct l as [|c0 l0]; [congruence|].
    inversion Hsp; subst. destruct ls; assumption. }
  rewrite Hl, rstrip_snoc_space by reflexivity.
  rewrite Hs, rstrip_snoc_nonspace by exact Hc. rewrite <- Hs.
  apply split_join. eapply Forall_impl; [exact Hall|].
  apply tag_name_no_newline.
Qed.

Lemma output_lines_no_newline out : Forall no_newline (output_lines out).
Proof. apply split_pieces. Qed.

(** ** [get_latest_tag] *)

Lemma get_latest_tag_lines root out :
  returncode (subprocess_run git_tag_argv root) = 0%Z ->
  stdout (subprocess_run git_tag_argv root) = Some out ->
  get_latest_tag root = first_semver_tag (output_lines out).
Proof.
  intros Hrc Hout. unfold get_latest_tag. rewrite Hrc, Hout.
  now case_decide.
Qed.



(** C5.  A failed query (a non-zero exit status, or absent, empty or blank
    output) raises nothing: [get_latest_tag] returns [None] and
    [get_commits_since_tag] returns the empty list. *)
Theorem query_failure_is_soft (root tag : pystr) :
  (query_failed (subprocess_run git_tag_argv root) ->
   get_latest_tag root = None) /\
  (query_failed (subprocess_run (git_log_argv tag) root) ->
   get_commits_since_tag tag root = []).
Proof.
  split; intros [Hrc|Hblank].
  - unfold get_latest_tag. now case_decide.
  - unfold get_latest_tag. case_decide; [reflexivity|].
    unfold output_lines. rewrite strip_default_blank by exact Hblank.
    vm_compute. reflexivity.
  - unfold get_commits_since_tag.
    rewrite (bool_decide_eq_true_2 _ Hrc). reflexivity.
  - unfold get_commits_since_tag.
    rewrite (bool_decide_eq_true_2 (strip _ = []))
      by (now apply strip_default_blank).
    now rewrite orb_true_r.
Qed.

(** ** [get_commits_since_tag] *)

Lemma split_max_no_sep sep d n :
  Forall (fun c => c <> sep) d -> split_max sep d n = [d].
Proof.
  induction 1 as [|c d Hc _ IH]; simpl; [reflexivity|].
  destruct n; [reflexivity|].
  destruct (N.eqb_spec c sep); [contradiction|]. now rewrite IH.
Qed.

Lemma split_max_app_sep sep d r n :
  Forall (fun c => c <> sep) d ->
  split_max sep (d ++ sep :: r) (S n) = d :: split_max sep r n.
Proof.
  induction 1 as [|c d Hc _ IH]; simpl.
  - now rewrite N.eqb_refl.
  - destruct (N.eqb_spec c sep); [contradiction|]. now rewrite IH.
Qed.


Lemma first_sep_decomp (sep : char) (s : pystr) :
  Forall (fun c => c <> sep) s \/
  exists d r, Forall (fun c => c <> sep) d /\ s = d ++ sep :: r.
Proof.
  induction s as [|c s' [IH|(d & r & Hd & ->)]].
  - left. constructor.
  - destruct (N.eqb_spec c sep) as [->|Hc].
    + right. exists [], s'. split; [constructor|reflexivity].
    + left. now constructor.
  - destruct (N.eqb_spec c sep) as [->|Hc].
    + right. exists [], (d ++ sep :: r). split; [constructor|reflexivity].
    + right. exists (c :: d), r. split; [now constructor|reflexivity].
Qed.

Lemma harvest_line_no_bar cs line : no_bar line -> harvest_line cs line = cs.
Proof. intros H. unfold harvest_line. now rewrite split_max_no_sep. Qed.

Lemma harvest_line_two cs m h :
  no_bar m -> no_bar h ->
  harvest_line cs (m ++ 124 :: h) = cs ++ [{| message := m; hash := h |}].
Proof.
  intros Hm Hh. unfold harvest_line.
  rewrite split_max_app_sep by exact Hm.
  now rewrite split_max_no_sep by exact Hh.
Qed.

Lemma harvest_line_three cs m h author :
  no_bar m -> no_bar h ->
  harvest_line cs (m ++ 124 :: h ++ 124 :: author)
    = cs ++ [{| message := m; hash := h |}].
Proof.
  intros Hm Hh. unfold harvest_line.
  rewrite split_max_app_sep by exact Hm.
  now rewrite split_max_app_sep by exact Hh.
Qed.

Lemma harvest_loop_acc lines cs :
  fold_left harvest_line lines cs = cs ++ fold_left harvest_line lines [].
Proof.
  revert cs; induction lines as [|line lines IH]; intros cs; simpl.
  - now rewrite app_nil_r.
  - rewrite IH, (IH (harvest_line [] line)), app_assoc. f_equal.
    unfold harvest_line. destruct (split_max 124 line 2) as [|p0 [|p1 ps]];
      simpl; now rewrite ?app_nil_r.
Qed.

Lemma harvest_loop_spec lines :
  harvested lines (fold_left harvest_line lines []).
Proof.
  induction lines as [|line lines IH]; simpl; [constructor|].
  rewrite harvest_loop_acc.
  destruct (first_sep_decomp 124 line) as [Hn|(m & r & Hm & ->)].
  - rewrite harvest_line_no_bar by exact Hn. now constructor.
  - destruct (first_sep_decomp 124 r) as [Hh|(h & a & Hh & ->)].
    + rewrite harvest_line_two by assumption. now constructor.
    + rewrite harvest_line_three by assumption. now constructor.
Qed.

Lemma get_commits_lines tag root :
  returncode (subprocess_run (git_log_argv tag) root) = 0%Z ->
  get_commits_since_tag tag root =
  fold_left harvest_line
    (output_lines (default [] (stdout (subprocess_run (git_log_argv tag) root))))
    [].
Proof.
  intros Hrc. unfold get_commits_since_tag. rewrite Hrc.
  rewrite (bool_decide_eq_false_2 (0%Z <> 0%Z)) by (intros H; now apply H).
  cbn [orb]. case_bool_decide as E; [|reflexivity].
  unfold output_lines. rewrite E. reflexivity.
Qed.

Lemma sep_split_unique (sep : char) (d r d' r' : pystr) :
  Forall (fun c => c <> sep) d -> Forall (fun c => c <> sep) d' ->
  d ++ sep :: r = d' ++ sep :: r' -> d = d' /\ r = r'.
Proof.
  intros Hd; revert d'; induction Hd as [|c d Hc _ IH]; intros d' Hd' E.
  - destruct Hd' as [|c' d' Hc' _]; simpl in E.
    + now injection E.
    + injection E as <- _. congruence.
  - destruct Hd' as [|c' d' Hc' Hd']; simpl in E.
    + injection E as -> _. congruence.
    + injection E as -> E. destruct (IH d' Hd' E) as [-> ->]. now split.
Qed.

Lemma no_bar_app_bar d r : ~ no_bar (d ++ 124 :: r).
Proof.
  intros H. apply Forall_app in H as [_ H]. inversion H; congruence.
Qed.

(** The relation determines the commits. *)
Lemma harvested_functional lines cs cs' :
  harvested lines cs -> harvested lines cs' -> cs = cs'.
Proof.
  intros H; revert cs'.
  induction H as [|line lines cs Hn _ IH|m h lines cs Hm Hh _ IH
                  |m h a lines cs Hm Hh _ IH]; intros cs' H'.
  - now inversion H'.
  - inversion H'; subst; try (now apply IH);
      exfalso; eapply no_bar_app_bar; eassumption.
  - inversion H' as [|? ? ? Hn' ?|m' h' ? ? Hm' Hh' ? E|m' h' a' ? ? Hm' Hh' ? E];
      subst.
    + exfalso; eapply no_bar_app_bar; eassumption.
    + apply sep_split_unique in E as [-> ->]; [|assumption..].
      f_equal. now apply IH.
    + apply sep_split_unique in E as [-> E]; [|assumption..].
      exfalso. rewrite <- E in Hh. eapply no_bar_app_bar; eassumption.
  - inversion H' as [|? ? ? Hn' ?|m' h' ? ? Hm' Hh' ? E|m' h' a' ? ? Hm' Hh' ? E];
      subst.
    + exfalso; eapply no_bar_app_bar; eassumption.
    + apply sep_split_unique in E as [-> E]; [|assumption..].
      exfalso. rewrite E in Hh'. eapply no_bar_app_bar; eassumption.
    + apply sep_split_unique in E as [-> E]; [|assumption..].
      apply sep_split_unique in E as [-> _]; [|assumption..].
      f_equal. now apply IH.
Qed.


(** ** [categorize_commits] *)

Lemma startswith_prefix s p : startswith s p = true <-> exists r, s = p ++ r.
Proof.
  revert s; induction p as [|a p IH]; intros s; simpl.
  - split; [now exists s|reflexivity].
  - destruct s as [|c s']; [split; [discriminate|now intros [r Hr]]|].
    rewrite andb_true_iff, N.eqb_eq, IH. split.
    + intros [-> [r ->]]. now exists r.
    + intros [r [= -> ->]]. split; [reflexivity|now exists r].
Qed.

Lemma category_of_cases msg :
  (category_of msg = "feat" /\ startswith msg (py "feat") = true) \/
  (category_of msg = "fix" /\ startswith msg (py "fix") = true) \/
  (category_of msg = "perf" /\ startswith msg (py "perf") = true) \/
  (category_of msg = "refactor" /\ startswith msg (py "refactor") = true) \/
  (category_of msg = "docs" /\ startswith msg (py "docs") = true) \/
  (category_of msg = "other" /\
   Forall (fun k => startswith msg (py k) = false) priority).
Proof.
  unfold category_of, priority. cbn [List.find].
  destruct (startswith msg (py "feat")) eqn:E1; [now left|].
  destruct (startswith msg (py "fix")) eqn:E2; [now right; left|].
  destruct (startswith msg (py "perf")) eqn:E3; [now right; right; left|].
  destruct (startswith msg (py "refactor")) eqn:E4;
    [now right; right; right; left|].
  destruct (startswith msg (py "docs")) eqn:E5;
    [now right; right; right; right; left|].
  do 5 right. split; [reflexivity|]. now repeat constructor.
Qed.

Lemma category_of_key msg : category_of msg ∈ category_keys.
Proof.
  destruct (category_of_cases msg) as [[-> _]|[[-> _]|[[-> _]|[[-> _]|[[-> _]|[-> _]]]]]];
    unfold category_keys, priority; set_solver.
Qed.

(** The chain of tests of the loop body picks [category_of]. *)
Lemma categorize_step_category cats c :
  categorize_step cats c = dict_append cats (category_of (message c)) (message c).
Proof.
  unfold categorize_step, category_of, priority. cbn [List.find].
  destruct (startswith (message c) (py "feat")); [reflexivity|].
  destruct (startswith (message c) (py "fix")); [reflexivity|].
  destruct (startswith (message c) (py "perf")); [reflexivity|].
  destruct (startswith (message c) (py "refactor")); [reflexivity|].
  destruct (startswith (message c) (py "docs")); reflexivity.
Qed.

Lemma bucket_of_cons k c commits :
  bucket_of k (c :: commits) =
  if decide (category_of (message c) = k)
  then message c :: bucket_of k commits else bucket_of k commits.
Proof. unfold bucket_of. rewrite fmap_cons, filter_cons. reflexivity. Qed.

Lemma categorize_loop_spec commits (cats : gmap string (list pystr)) :
  (forall k, k ∈ category_keys -> is_Some (cats !! k)) ->
  exists cats',
    categorize_loop commits cats = Ok cats' /\
    forall k, cats' !! k = (fun l => l ++ bucket_of k commits) <$> (cats !! k).
Proof.
  revert cats; induction commits as [|c commits IH]; intros cats Hkeys.
  - exists cats. split; [reflexivity|]. intros k.
    destruct (cats !! k); simpl; [|reflexivity]. now rewrite app_nil_r.
  - cbn [categorize_loop]. rewrite categorize_step_category.
    unfold dict_append.
    destruct (Hkeys _ (category_of_key (message c))) as [l Hl]. rewrite Hl.
    cbn [bind].
    destruct (IH (<[category_of (message c) := l ++ [message c]]> cats))
      as (cats' & Hloop & Hcats').
    { intros k Hk. rewrite lookup_insert. case_decide; [now eexists|].
      now apply Hkeys. }
    exists cats'. split; [exact Hloop|]. intros k.
    rewrite Hcats', lookup_insert, bucket_of_cons.
    case_decide as Hk.
    + subst k. rewrite Hl. simpl. now rewrite <- app_assoc.
    + reflexivity.
Qed.

Lemma empty_categories_lookup k :
  empty_categories !! k = if decide (k ∈ category_keys) then Some [] else None.
Proof.
  unfold empty_categories, category_keys, priority. case_decide as H.
  - simpl in H.
    repeat (apply elem_of_cons in H as [->|H]; [reflexivity|]).
    now apply elem_of_nil in H.
  - rewrite !lookup_insert_ne; [apply lookup_empty|..];
      intros <-; apply H; simpl; set_solver.
Qed.

(** Every run of [categorize_commits] ends normally, with these buckets. *)
Lemma categorize_commits_buckets commits :
  exists cats,
    categorize_commits commits = Ok cats /\
    forall k, cats !! k =
      if decide (k ∈ category_keys) then Some (bucket_of k commits) else None.
Proof.
  destruct (categorize_loop_spec commits empty_categories) as (cats & H & Hc).
  { intros k Hk. rewrite empty_categories_lookup, decide_True by exact Hk.
    now eexists. }
  exists cats. split; [exact H|]. intros k.
  rewrite Hc, empty_categories_lookup. now case_decide.
Qed.

Lemma bucket_lengths commits :
  (length (bucket_of "feat" commits) + length (bucket_of "fix" commits)
   + length (bucket_of "perf" commits) + length (bucket_of "refactor" commits)
   + length (bucket_of "docs" commits) + length (bucket_of "other" commits)
   = length commits)%nat.
Proof.
  induction commits as [|c commits IH]; [reflexivity|].
  rewrite !bucket_of_cons.
  destruct (category_of_cases (message c))
    as [[-> _]|[[-> _]|[[-> _]|[[-> _]|[[-> _]|[-> _]]]]]];
    repeat case_decide; try discriminate; try congruence; simpl; lia.
Qed.

Lemma find_first {A} (f : A -> bool) l x :
  List.find f l = Some x <->
  exists before after,
    l = before ++ x :: after /\ f x = true /\
    Forall (fun y => f y = false) before.
Proof.
  induction l as [|a l IH]; simpl.
  - split; [discriminate|]. intros (before & after & E & _).
    now destruct before.
  - destruct (f a) eqn:Ha.
    + split.
      * intros [= ->]. exists [], l. repeat split; [exact Ha|constructor].
      * intros (before & after & E & Hx & Hb).
        destruct Hb as [|y before Hy _]; simpl in E.
        -- now injection E as ->.
        -- injection E as -> _. congruence.
    + rewrite IH. split.
      * intros (before & after & -> & Hx & Hb).
        exists (a :: before), after. repeat split; [exact Hx|now constructor].
      * intros (before & after & E & Hx & Hb).
        destruct Hb as [|y before Hy Hb]; simpl in E.
        -- injection E as -> _. congruence.
        -- injection E as -> ->. now exists before, after.
Qed.

(** C1.  [categorize_commits] ends normally on every list of commits.  The
    mapping it returns has exactly the six keys; the bucket of a key holds
    the messages of its category in the order of the input; every commit's
    message is in exactly one bucket; and the lengths of the buckets add up
    to the length of the input. *)
Theorem categorize_commits_partition (commits : list commit) :
  exists cats,
    categorize_commits commits = Ok cats /\
    dom cats = list_to_set category_keys /\
    (forall k, k ∈ category_keys -> cats !! k = Some (bucket_of k commits)) /\
    (forall k l, cats !! k = Some l -> sublist l (message <$> commits)) /\
    (forall c, c ∈ commits ->
       exists k,
         (exists l, cats !! k = Some l /\ message c ∈ l) /\
         forall k' l', cats !! k' = Some l' -> message c ∈ l' -> k' = k) /\
    sum_list ((fun k => length (default [] (cats !! k))) <$> category_keys)
      = length commits.
Proof.
  destruct (categorize_commits_buckets commits) as (cats & Hok & Hcats).
  exists cats. split; [exact Hok|]. repeat split.
  - apply set_eq. intros k.
    rewrite elem_of_dom, Hcats, elem_of_list_to_set.
    case_decide; split; intros H'; first [done|now eexists|now destruct H'].
  - intros k Hk. now rewrite Hcats, decide_True.
  - intros k l. rewrite Hcats. case_decide; [|discriminate].
    intros [= <-]. apply sublist_filter.
  - intros c Hc. exists (category_of (message c)). split.
    + exists (bucket_of (category_of (message c)) commits). split.
      * rewrite Hcats, decide_True; [reflexivity|apply category_of_key].
      * apply list_elem_of_filter. split; [reflexivity|].
        now apply list_elem_of_fmap_2.
    + intros k' l'. rewrite Hcats. case_decide; [|discriminate].
      intros [= <-] Hin. apply list_elem_of_filter in Hin as [Hcat _].
      now symmetry.
  - unfold category_keys, priority. cbn [app fmap list_fmap sum_list sum_list_with].
    rewrite !Hcats. unfold category_keys, priority.
    repeat (rewrite decide_True by (simpl; set_solver)).
    cbn [default from_option id]. rewrite <- (bucket_lengths commits). lia.
Qed.

(** C7.  [categorize_commits] puts every commit into the bucket of the first
    category, in the order feat, fix, perf, refactor, docs, whose name is a
    prefix of the message, and into [other] when none is.  The test is the
    plain prefix test on the characters: [featuring] is a feat, [Feat] is
    not, and [feat: perf improvements] is a feat and not a perf. *)
Theorem categorize_commits_first_prefix_wins :
  (forall commits, exists cats,
     categorize_commits commits = Ok cats /\
     forall c, c ∈ commits ->
       exists l, cats !! category_of (message c) = Some l /\ message c ∈ l) /\
  (forall msg k, k ∈ priority ->
     (category_of msg = k <->
      exists before after,
        priority = before ++ k :: after /\ startswith msg (py k) = true /\
        Forall (fun k' => startswith msg (py k') = false) before)) /\
  (forall msg,
     category_of msg = "other" <->
     Forall (fun k => startswith msg (py k) = false) priority) /\
  (forall s p, startswith s p = true <-> exists r, s = p ++ r) /\
  category_of (py "featuring") = "feat" /\
  category_of (py "Feat: x") = "other" /\
  category_of (py "feat: perf improvements") = "feat" /\
  (exists cats,
     categorize_commits
       [{| message := py "feat: perf improvements"; hash := py "abc" |}]
       = Ok cats /\
     cats !! "feat" = Some [py "feat: perf improvements"] /\
     cats !! "perf" = Some []).
Proof.
  split; [|split; [|split; [|split; [|split; [|split; [|split]]]]]].
  - intros commits.
    destruct (categorize_commits_buckets commits) as (cats & Hok & Hcats).
    exists cats. split; [exact Hok|]. intros c Hc.
    exists (bucket_of (category_of (message c)) commits). split.
    + rewrite Hcats, decide_True; [reflexivity|apply category_of_key].
    + apply list_elem_of_filter. split; [reflexivity|].
      now apply list_elem_of_fmap_2.
  - intros msg k Hk.
    pose proof (find_first (fun k => startswith msg (py k)) priority k) as Hf.
    cbv beta in Hf. rewrite <- Hf. unfold category_of. split.
    + destruct (List.find _ priority) as [k0|]; simpl; [congruence|].
      intros <-. exfalso. unfold priority in Hk.
      repeat (apply elem_of_cons in Hk as [Hk|Hk]; [discriminate|]).
      now apply elem_of_nil in Hk.
    + now intros ->.
  - intros msg. split.
    + intros H.
      destruct (category_of_cases msg)
        as [[E _]|[[E _]|[[E _]|[[E _]|[[E _]|[_ Hall]]]]]];
        try (rewrite E in H; discriminate). exact Hall.
    + intros Hall. unfold category_of, priority in *.
      repeat (apply Forall_cons in Hall as [E Hall]; cbn [List.find];
              rewrite E; clear E). reflexivity.
  - apply startswith_prefix.
  - vm_compute. reflexivity.
  - vm_compute. reflexivity.
  - vm_compute. reflexivity.
  - eexists. split; [vm_compute; reflexivity|].
    split; vm_compute; reflexivity.
Qed.

(** ** The pattern of [generate_release_notes] *)

Lemma rmatch_lit {A} token b s (k : bool -> pystr -> option A) :
  token <> [] ->
  rmatch (Lit token) b s k =
  if startswith s token then k false (drop (length token) s) else None.
Proof.
  assert (G : forall token b s,
            rmatch (Lit token) b s k =
            if startswith s token
            then k (match token with [] => b | _ => false end)
                   (drop (length token) s)
            else None).
  { clear. induction token as [|a p IH]; intros b s; [reflexivity|].
    cbn [Lit]. rewrite rmatch_cat, rmatch_chr.
    destruct s as [|c s']; [reflexivity|].
    cbn [eat_char startswith length drop]. destruct (c =? a); [|reflexivity].
    rewrite IH. simpl. now destruct p. }
  intros Hne. rewrite G. now destruct token.
Qed.

Lemma re_match_prefix_pattern token msg :
  token <> [] ->
  re_match (prefix_pattern token) msg =
  if startswith msg token then Some (strip_prefix token msg) else None.
Proof.
  intros Hne. unfold re_match, prefix_pattern.
  rewrite rmatch_cat. cbn [rmatch]. fold (Lit token).
  change (rmatch (Cat (Lit token) (Star (Cls colon_or_space))) true msg
            (fun _ rest => Some rest) =
          if startswith msg token then Some (strip_prefix token msg) else None).
  rewrite rmatch_cat, rmatch_lit by exact Hne.
  destruct (startswith msg token); [|reflexivity].
  rewrite rmatch_star_cls. now apply star_cls_longest.
Qed.

Lemma prefix_pattern_anchored {A} token s (k : bool -> pystr -> option A) :
  rmatch (prefix_pattern token) false s k = None.
Proof. reflexivity. Qed.

Lemma sub_scan_no_match pattern fuel s :
  (forall s', rmatch pattern false s' (fun _ rest => Some rest) = None) ->
  sub_scan pattern fuel false s = s.
Proof.
  intros Hno. revert s; induction fuel as [|fuel IH]; intros s; [reflexivity|].
  cbn [sub_scan]. rewrite Hno. destruct s as [|c r]; [reflexivity|].
  now rewrite IH.
Qed.

Lemma drop_while_length p s : (length (drop_while p s) <= length s)%nat.
Proof.
  induction s as [|c s' IH]; simpl; [lia|]. destruct (p c); simpl; lia.
Qed.

Lemma startswith_length s p :
  startswith s p = true -> (length p <= length s)%nat.
Proof.
  intros H. apply startswith_prefix in H as [r ->].
  rewrite length_app. lia.
Qed.

Lemma strip_prefix_length token msg :
  token <> [] -> startswith msg token = true ->
  (length (strip_prefix token msg) < length msg)%nat.
Proof.
  intros Hne Hs. apply startswith_length in Hs. unfold strip_prefix.
  pose proof (drop_while_length colon_or_space (drop (length token) msg)) as H.
  rewrite length_drop in H. destruct token; [congruence|]. simpl in *. lia.
Qed.

(** The substitution removes the token and what the class matches after it
    when the message starts with the token, and changes nothing otherwise. *)
Lemma re_sub_prefix_pattern token msg :
  token <> [] ->
  re_sub_empty (prefix_pattern token) msg =
  if startswith msg token then strip_prefix token msg else msg.
Proof.
  intros Hne. unfold re_sub_empty. cbn [sub_scan].
  change (rmatch (prefix_pattern token) true msg (fun _ rest => Some rest))
    with (re_match (prefix_pattern token) msg).
  rewrite re_match_prefix_pattern by exact Hne.
  destruct (startswith msg token) eqn:Hs.
  - pose proof (strip_prefix_length token msg Hne Hs) as Hlt.
    apply Nat.ltb_lt in Hlt. rewrite Hlt.
    apply sub_scan_no_match. intros s'. apply prefix_pattern_anchored.
  - destruct msg as [|c r]; [reflexivity|].
    rewrite sub_scan_no_match; [reflexivity|].
    intros s'. apply prefix_pattern_anchored.
Qed.

Lemma strip_prefix_decomp token msg :
  startswith msg token = true ->
  exists seps,
    msg = token ++ seps ++ strip_prefix token msg /\
    Forall (fun c => colon_or_space c = true) seps /\
    stops colon_or_space (strip_prefix token msg).
Proof.
  intros H. apply startswith_prefix in H as [r ->]. unfold strip_prefix.
  rewrite drop_app_length.
  destruct (drop_while_decomp colon_or_space r) as (seps & Hseps & Hr & Hstop).
  exists seps. repeat split; [|exact Hseps|exact Hstop]. now rewrite <- Hr.
Qed.

(** ** [generate_release_notes] *)

Lemma category_of_startswith msg k :
  category_of msg = k -> k <> "other" -> startswith msg (py k) = true.
Proof.
  intros <- Hk.
  destruct (category_of_cases msg)
    as [[E H]|[[E H]|[[E H]|[[E H]|[[E H]|[E _]]]]]];
    rewrite E in *; try exact H. congruence.
Qed.

Lemma bullets_loop (f : pystr -> pystr) bucket (lines : list pystr) :
  fold_left (fun ls msg => ls ++ [f msg]) bucket lines = lines ++ (f <$> bucket).
Proof.
  revert lines; induction bucket as [|m bucket IH]; intros lines; simpl.
  - now rewrite app_nil_r.
  - rewrite IH, <- app_assoc. reflexivity.
Qed.

Lemma render_block_spec lines label (k : string) commits :
  k <> "other" -> py k <> [] ->
  render_block lines (label ++ [10]) (py k) (bucket_of k commits) =
  lines ++ section_lines commits (k, label).
Proof.
  intros Hk Hne. unfold render_block, section_lines. cbn [fst snd].
  assert (Hall : Forall (fun m => startswith m (py k) = true) (bucket_of k commits)).
  { apply Forall_forall. intros m Hm.
    apply list_elem_of_filter in Hm as [Hm _].
    now apply category_of_startswith. }
  destruct (bucket_of k commits) as [|m b]; [now rewrite app_nil_r|].
  rewrite bullets_loop, <- !app_assoc. cbn [app]. do 2 f_equal.
  f_equal. apply Forall_fmap_ext_1.
  eapply Forall_impl; [exact Hall|]. intros m' Hm'. cbv beta.
  rewrite re_sub_prefix_pattern by exact Hne. now rewrite Hm'.
Qed.

Lemma generate_release_notes_since version tag root :
  tag <> [] ->
  generate_release_notes version (Some tag) root =
  Ok (notes_of version (get_commits_since_tag tag root)).
Proof.
  intros Htag. unfold generate_release_notes.
  destruct tag as [|c0 tag0]; [congruence|]. cbn [truthy].
  set (commits := get_commits_since_tag (c0 :: tag0) root).
  destruct (categorize_commits_buckets commits) as (cats & Hok & Hcats).
  rewrite Hok. cbn [bind]. unfold getitem.
  rewrite !Hcats.
  repeat (rewrite decide_True by (unfold category_keys, priority; simpl; repeat constructor)).
  cbn [bind].
  rewrite !render_block_spec by (discriminate || (vm_compute; discriminate)).
  unfold notes_of, rendered. cbn [flat_map].
  rewrite app_nil_r, <- !app_assoc. reflexivity.
Qed.

Lemma generate_release_notes_first version root :
  generate_release_notes version None root = Ok (py "## v" ++ version ++ [10]) /\
  generate_release_notes version (Some []) root = Ok (py "## v" ++ version ++ [10]).
Proof. split; reflexivity. Qed.

Lemma bucket_of_rendered_only k commits :
  k ∉ unrendered ->
  bucket_of k (filter (fun c => category_of (message c) ∉ unrendered) commits)
  = bucket_of k commits.
Proof.
  intros Hk. induction commits as [|c commits IH]; [reflexivity|].
  rewrite filter_cons, (bucket_of_cons k c commits).
  destruct (decide (category_of (message c) ∉ unrendered)) as [Hc|Hc].
  - rewrite bucket_of_cons, IH. reflexivity.
  - rewrite IH. case_decide as E; [|reflexivity].
    exfalso. apply Hc. now rewrite E.
Qed.

Lemma notes_of_rendered_only version commits :
  notes_of version
    (filter (fun c => category_of (message c) ∉ unrendered) commits)
  = notes_of version commits.
Proof.
  unfold notes_of, rendered. cbn [flat_map]. unfold section_lines. cbn [fst snd].
  rewrite !bucket_of_rendered_only
    by (unfold unrendered; intros H;
        repeat (apply elem_of_cons in H as [H|H]; [discriminate|]);
        now apply elem_of_nil in H).
  reflexivity.
Qed.

(** C8, amended.  With a previous tag that is not the empty string the notes
    are the version heading followed, for feat, fix, perf and refactor in
    this order, by a section for each non-empty bucket: its heading line, a
    bullet [- ...] per message with the token and the colons and white space
    after it removed, and an empty element, all joined by newlines.  The
    buckets docs and other do not contribute, and an empty bucket gives
    nothing.  The source tests the truth value of [prev_tag], so the empty
    string counts as no tag: the notes are then the heading alone. *)
Theorem generate_release_notes_sections (version tag root : pystr) :
  tag <> [] ->
  generate_release_notes version (Some tag) root
    = Ok (notes_of version (get_commits_since_tag tag root)) /\
  (forall k label m,
     (k, label) ∈ rendered ->
     m ∈ bucket_of k (get_commits_since_tag tag root) ->
     exists seps,
       m = py k ++ seps ++ strip_prefix (py k) m /\
       Forall (fun c => colon_or_space c = true) seps /\
       stops colon_or_space (strip_prefix (py k) m)) /\
  (forall commits,
     notes_of version
       (filter (fun c => category_of (message c) ∉ unrendered) commits)
     = notes_of version commits) /\
  (forall commits,
     Forall (fun c => category_of (message c) ∈ unrendered) commits ->
     notes_of version commits = py "## v" ++ version ++ [10]) /\
  generate_release_notes version (Some []) root
    = Ok (py "## v" ++ version ++ [10]) /\
  (returncode (subprocess_run (git_log_argv (py "1.0.0")) root) = 0%Z ->
   stdout (subprocess_run (git_log_argv (py "1.0.0")) root)
     = Some (py "feat: 新機能追加|abc1234|author" ++ [10]
             ++ py "fix: バグ修正|def5678|author" ++ [10]) ->
   generate_release_notes (py "1.1.0") (Some (py "1.0.0")) root
     = Ok (py "## v1.1.0" ++ [10; 10]
           ++ py "## ✨ New Features" ++ [10; 10]
           ++ py "- 新機能追加" ++ [10; 10]
           ++ py "## 🐛 Bug Fixes" ++ [10; 10]
           ++ py "- バグ修正" ++ [10])).
Proof.
  intros Htag. split; [|split; [|split; [|split; [|split]]]].
  - now apply generate_release_notes_since.
  - intros k label m Hk Hm. apply strip_prefix_decomp.
    apply list_elem_of_filter in Hm as [Hm _].
    apply category_of_startswith; [exact Hm|].
    unfold rendered in Hk.
    repeat (apply elem_of_cons in Hk as [[= -> _]|Hk]; [discriminate|]).
    now apply elem_of_nil in Hk.
  - apply notes_of_rendered_only.
  - intros commits Hall.
    rewrite <- notes_of_rendered_only.
    assert (E : filter (fun c => category_of (message c) ∉ unrendered) commits = []).
    { induction Hall as [|c commits Hc _ IH]; [reflexivity|].
      rewrite filter_cons. now rewrite decide_False by (intros H; now apply H). }
    rewrite E. reflexivity.
  - reflexivity.
  - intros Hrc Hout.
    rewrite generate_release_notes_since by discriminate.
    unfold get_commits_since_tag. rewrite Hrc, Hout. vm_compute. reflexivity.
Qed.

Lemma heading_lines version :
  no_newline version ->
  split 10 (py "## v" ++ version ++ [10]) = [py "## v" ++ version; []].
Proof.
  intros Hv. rewrite app_assoc.
  rewrite split_app_sep; [reflexivity|].
  apply Forall_app. split; [|exact Hv]. repeat constructor; discriminate.
Qed.

(** C9.  The notes always begin with the heading [## v{version}] and its
    newline, and without a previous tag they are this heading and nothing
    else: for a version without a newline no line of the notes is a section
    heading. *)
Theorem generate_release_notes_heading :
  (forall version prev_tag root, exists rest,
     generate_release_notes version prev_tag root
       = Ok (py "## v" ++ version ++ [10] ++ rest)) /\
  (forall version root,
     generate_release_notes version None root
       = Ok (py "## v" ++ version ++ [10])) /\
  (forall version root notes line k label,
     no_newline version ->
     generate_release_notes version None root = Ok notes ->
     line ∈ split 10 notes -> (k, label) ∈ rendered -> line <> label) /\
  (forall root,
     generate_release_notes (py "1.0.0") None root = Ok (py "## v1.0.0" ++ [10])).
Proof.
  split; [|split; [|split]].
  - intros version prev_tag root.
    destruct prev_tag as [[|c tag]|].
    + exists []. now rewrite app_nil_r.
    + rewrite generate_release_notes_since by discriminate.
      unfold notes_of.
      destruct (flat_map _ rendered) as [|x l].
      * exists []. now rewrite app_nil_r.
      * exists ([10] ++ join [10] (x :: l)). cbn [join].
        now rewrite <- !app_assoc.
    + exists []. now rewrite app_nil_r.
  - reflexivity.
  - intros version root notes line k label Hv Hnotes Hline Hk.
    rewrite (proj1 (generate_release_notes_first version root)) in Hnotes.
    assert (E : notes = py "## v" ++ version ++ [10]) by congruence.
    subst notes. rewrite heading_lines in Hline by exact Hv.
    unfold rendered in Hk.
    apply elem_of_cons in Hline as [->|Hline];
      [|apply elem_of_cons in Hline as [->|Hline];
        [|now apply elem_of_nil in Hline]];
      repeat (apply elem_of_cons in Hk as [[= -> ->]|Hk];
              [vm_compute; discriminate|]);
      now apply elem_of_nil in Hk.
  - reflexivity.
Qed.

(** C10.  The substitution always finds its pattern on a rendered message:
    a message that starts with the token is matched by [^token[:\s]*], the
    class matching also nothing at all, so the token is always removed and
    no message of a rendered bucket is left as it is.  [featuring X] in the
    feat bucket becomes the bullet [- uring X]. *)
Theorem rendered_prefix_always_stripped :
  (forall token msg,
     token <> [] -> startswith msg token = true ->
     re_match (prefix_pattern token) msg = Some (strip_prefix token msg) /\
     re_sub_empty (prefix_pattern token) msg = strip_prefix token msg /\
     (length (strip_prefix token msg) <= length msg - length token)%nat) /\
  (forall commits cats k label l m,
     categorize_commits commits = Ok cats ->
     (k, label) ∈ rendered -> cats !! k = Some l -> m ∈ l ->
     is_Some (re_match (prefix_pattern (py k)) m) /\
     re_sub_empty (prefix_pattern (py k)) m <> m) /\
  re_sub_empty (prefix_pattern (py "feat")) (py "featuring X") = py "uring X" /\
  (forall root,
     returncode (subprocess_run (git_log_argv (py "1.0.0")) root) = 0%Z ->
     stdout (subprocess_run (git_log_argv (py "1.0.0")) root)
       = Some (py "featuring X|abc1234|author") ->
     generate_release_notes (py "1.1.0") (Some (py "1.0.0")) root
       = Ok (py "## v1.1.0" ++ [10; 10]
             ++ py "## ✨ New Features" ++ [10; 10]
             ++ py "- uring X" ++ [10])).
Proof.
  split; [|split; [|split]].
  - intros token msg Hne Hs.
    rewrite re_match_prefix_pattern, re_sub_prefix_pattern, Hs by exact Hne.
    repeat split. unfold strip_prefix.
    pose proof (drop_while_length colon_or_space (drop (length token) msg)) as H.
    now rewrite length_drop in H.
  - intros commits cats k label l m Hok Hk Hl Hm.
    destruct (categorize_commits_buckets commits) as (cats' & Hok' & Hcats).
    rewrite Hok in Hok'. injection Hok' as <-.
    rewrite Hcats in Hl. case_decide; [|discriminate]. injection Hl as <-.
    apply list_elem_of_filter in Hm as [Hm _].
    assert (Hne : py k <> [] /\ k <> "other").
    { unfold rendered in Hk.
      repeat (apply elem_of_cons in Hk as [[= -> _]|Hk];
              [split; [vm_compute|]; discriminate|]).
      now apply elem_of_nil in Hk. }
    destruct Hne as [Hne Hother].
    pose proof (category_of_startswith m k Hm Hother) as Hs.
    rewrite re_match_prefix_pattern, re_sub_prefix_pattern, Hs by exact Hne.
    split; [now eexists|].
    intros E. pose proof (strip_prefix_length (py k) m Hne Hs) as Hlt.
    rewrite E in Hlt. lia.
  - vm_compute. reflexivity.
  - intros root Hrc Hout.
    rewrite generate_release_notes_since by discriminate.
    unfold get_commits_since_tag. rewrite Hrc, Hout. vm_compute. reflexivity.
Qed.

(** * Further properties *)

(** ** Errors of [increment_version] *)

Lemma int_of_str_raise x e : int_of_str x = Raise e -> e = ValueError.
Proof.
  unfold int_of_str.
  destruct (match drop_while int_space x with
            | 43 :: r => (false, r)
            | 45 :: r => (true, r)
            | _ => (false, drop_while int_space x)
            end) as [neg s].
  destruct (scan_digits s 0 0 false false) as [[[n k] rest]|]; [|congruence].
  destruct (int_max_str_digits <? k); [congruence|].
  destruct (drop_while int_space rest); congruence.
Qed.

Lemma comprehension_raise {A B} (f : A -> result B) l e :
  comprehension f l = Raise e -> exists x, x ∈ l /\ f x = Raise e.
Proof.
  induction l as [|x l IH]; simpl; [discriminate|].
  destruct (f x) as [y|e'] eqn:Ex; simpl.
  - destruct (comprehension f l) as [ys|e'']; simpl; [discriminate|].
    intros [= ->]. destruct IH as (x' & Hin & Hx'); [reflexivity|].
    exists x'. split; [now right|exact Hx'].
  - intros [= ->]. exists x. split; [now left|exact Ex].
Qed.

Lemma comprehension_ok_inv {A B} (f : A -> result B) l ys :
  comprehension f l = Ok ys -> Forall2 (fun x y => f x = Ok y) l ys.
Proof.
  revert ys; induction l as [|x l IH]; simpl; intros ys.
  - intros [= <-]. constructor.
  - destruct (f x) as [y|e] eqn:Ex; simpl; [|discriminate].
    destruct (comprehension f l) as [ys'|e]; simpl; [|discriminate].
    intros [= <-]. constructor; [exact Ex|now apply IH].
Qed.

Lemma comprehension_ok_all {A B} (f : A -> result B) l ys :
  Forall2 (fun x y => f x = Ok y) l ys ->
  Forall (fun x => exists y, f x = Ok y) l.
Proof.
  induction 1; constructor; eauto.
Qed.

Lemma comprehension_app {A B} (f : A -> result B) l1 l2 :
  comprehension f (l1 ++ l2) =
  do ys1 <- comprehension f l1 ;
  do ys2 <- comprehension f l2 ;
  Ok (ys1 ++ ys2).
Proof.
  induction l1 as [|x l1 IH]; simpl.
  - now destruct (comprehension f l2).
  - destruct (f x) as [y|e]; simpl; [|reflexivity].
    rewrite IH. destruct (comprehension f l1) as [ys1|e]; simpl; [|reflexivity].
    now destruct (comprehension f l2).
Qed.

Lemma comprehension_all_ok {A B} (f : A -> result B) l :
  Forall (fun x => exists y, f x = Ok y) l ->
  exists ys, comprehension f l = Ok ys.
Proof.
  induction 1 as [|x l [y Hy] _ [ys IH]]; simpl.
  - now exists [].
  - rewrite Hy, IH. simpl. now eexists.
Qed.

(** The integers that [int] returned are rendered without error. *)
Lemma parts_rendered (fields : list pystr) (parts : list Z) :
  Forall2 (fun x y => int_of_str x = Ok y) fields parts ->
  Forall (fun z => str_of_int z = Ok (int_text z)) parts.
Proof.
  induction 1; constructor; eauto using str_of_int_of_str.
Qed.

(** The result of [increment_version] once the fields are read. *)
Lemma increment_version_parts version bump parts :
  comprehension int_of_str (split 46 version) = Ok parts ->
  increment_version version bump =
  if (length parts <? fields_needed bump)%nat then Raise IndexError
  else bumped bump (nth 0 parts 0%Z) (nth 1 parts 0%Z) (nth 2 parts 0%Z).
Proof.
  intros H.
  pose proof (parts_rendered _ _ (comprehension_ok_inv _ _ _ H)) as R.
  unfold increment_version, fields_needed, bumped. rewrite H.
  cbn [bind]. repeat case_decide;
    destruct parts as [|p0 [|p1 [|p2 parts]]];
    repeat match goal with
           | R : Forall _ (_ :: _) |- _ =>
             let E := fresh "E" in
             apply Forall_cons in R as [E R]
           end;
    cbn [index nth_error bind length nth]; rewrite ?E, ?E0; reflexivity.
Qed.

Lemma bumped_raise bump p0 p1 p2 e :
  bumped bump p0 p1 p2 = Raise e -> e = ValueError.
Proof.
  unfold bumped. repeat case_decide;
    match goal with
    | |- context [str_of_int ?z] =>
      destruct (str_of_int z) eqn:E; cbn [bind]; [discriminate|]
    end;
    intros [= <-]; now apply str_of_int_raise in E.
Qed.

(** The rendering fails exactly when the incremented number has more digits
    than the limit. *)
Lemma bumped_value_error bump parts :
  (fields_needed bump <= length parts)%nat ->
  bumped bump (nth 0 parts 0%Z) (nth 1 parts 0%Z) (nth 2 parts 0%Z)
    = Raise ValueError <->
  max_int_text <= Z.abs_N (nth (fields_needed bump - 1) parts 0%Z + 1).
Proof.
  intros _. unfold bumped, fields_needed.
  repeat case_decide; cbn [Nat.sub];
    rewrite str_of_int_spec;
    match goal with
    | |- context [?n <? max_int_text] => destruct (N.ltb_spec n max_int_text)
    end; cbn [bind]; split; try discriminate; try reflexivity; lia.
Qed.

Lemma split_nonempty sep s : split sep s <> [].
Proof.
  destruct s as [|c s']; simpl; [discriminate|].
  destruct (c =? sep); [discriminate|].
  destruct (split sep s'); discriminate.
Qed.

(** [increment_version] raises [ValueError] in two cases, and in these
    only.  Either [int] refuses some field between the dots, whether the
    bump kind reads that field or not: the field is not the text of an
    integer, or it has more than 4300 digits.  Or every field is read, the
    fields that the bump kind reads are there, and the incremented number
    is [10 ** 4300] or more in absolute value, so that its text would have
    more than 4300 digits.  [increment_version] never raises [KeyError]. *)
Theorem increment_version_value_error (version bump : pystr) :
  (increment_version version bump = Raise ValueError <->
   (exists field,
      field ∈ split 46 version /\ int_of_str field = Raise ValueError) \/
   (exists parts,
      comprehension int_of_str (split 46 version) = Ok parts /\
      (fields_needed bump <= length parts)%nat /\
      max_int_text <= Z.abs_N (nth (fields_needed bump - 1) parts 0%Z + 1)))
  /\ increment_version version bump <> Raise KeyError.
Proof.
  destruct (comprehension int_of_str (split 46 version)) as [parts|e] eqn:E.
  - rewrite (increment_version_parts version bump parts E).
    destruct (Nat.ltb_spec (length parts) (fields_needed bump)) as [Hlt|Hge].
    + split; [split|discriminate]; [discriminate|].
      intros [(field & Hin & Hf)|(parts' & [= <-] & Hlen & _)]; [|lia].
      exfalso. apply comprehension_ok_inv in E.
      apply list_elem_of_lookup in Hin as [i Hi].
      destruct (Forall2_lookup_l _ _ _ _ _ E Hi) as (y & _ & Hy).
      rewrite Hy in Hf. discriminate.
    + split.
      * rewrite (bumped_value_error bump parts Hge). split.
        -- intros Hmax. right. now exists parts.
        -- intros [(field & Hin & Hf)|(parts' & [= <-] & _ & Hmax)];
             [|exact Hmax].
           exfalso. apply comprehension_ok_inv in E.
           apply list_elem_of_lookup in Hin as [i Hi].
           destruct (Forall2_lookup_l _ _ _ _ _ E Hi) as (y & _ & Hy).
           rewrite Hy in Hf. discriminate.
      * intros Hb. apply bumped_raise in Hb. discriminate.
  - assert (Hinc : increment_version version bump = Raise e)
      by (unfold increment_version; now rewrite E).
    destruct (comprehension_raise _ _ _ E) as (field & Hin & Hf).
    pose proof (int_of_str_raise _ _ Hf) as ->.
    rewrite Hinc. split; [split; [|reflexivity]|discriminate].
    intros _. left. now exists field.
Qed.

(** [increment_version] raises [IndexError] exactly when every field is the
    text of an integer and there are fewer fields than the bump kind reads:
    one for major, two for minor, three otherwise.  A major bump never
    raises it. *)
Theorem increment_version_index_error (version bump : pystr) :
  (increment_version version bump = Raise IndexError <->
   Forall (fun field => exists z, int_of_str field = Ok z) (split 46 version) /\
   (length (split 46 version) < fields_needed bump)%nat)
  /\ increment_version version (py "major") <> Raise IndexError.
Proof.
  assert (G : forall bump',
    increment_version version bump' = Raise IndexError <->
    Forall (fun field => exists z, int_of_str field = Ok z) (split 46 version) /\
    (length (split 46 version) < fields_needed bump')%nat).
  { intros bump'.
    destruct (comprehension int_of_str (split 46 version)) as [parts|e] eqn:E.
    - rewrite (increment_version_parts version bump' parts E).
      pose proof (comprehension_ok_inv _ _ _ E) as F2.
      pose proof (Forall2_length _ _ _ F2) as Hlen. rewrite Hlen.
      destruct (Nat.ltb_spec (length parts) (fields_needed bump')).
      + split; [|reflexivity]. intros _. split; [|assumption].
        now apply comprehension_ok_all in F2.
      + split; [|intros [_ Hlt]; lia].
        intros Hb. apply bumped_raise in Hb. discriminate.
    - assert (Hinc : increment_version version bump' = Raise e)
        by (unfold increment_version; now rewrite E).
      destruct (comprehension_raise _ _ _ E) as (field & Hin & Hf).
      pose proof (int_of_str_raise _ _ Hf) as ->. rewrite Hinc.
      split; [discriminate|]. intros [Hall _]. exfalso.
      rewrite Forall_forall in Hall. destruct (Hall field Hin) as [z Hz].
      rewrite Hz in Hf. discriminate. }
  split; [apply G|].
  rewrite G. intros [_ Hlt].
  pose proof (split_nonempty 46 version) as Hne.
  destruct (split 46 version); [congruence|].
  unfold fields_needed in Hlt. rewrite decide_True in Hlt by reflexivity.
  simpl in Hlt. lia.
Qed.

Lemma split_app (sep : char) (a b : pystr) :
  split sep (a ++ sep :: b) = split sep a ++ split sep b.
Proof.
  induction a as [|c a IH]; simpl.
  - now rewrite N.eqb_refl.
  - destruct (c =? sep); rewrite IH; [reflexivity|].
    pose proof (split_nonempty sep a) as Hne.
    destruct (split sep a); [congruence|reflexivity].
Qed.

(** Fields after the third are read but not used: appending [.extra] to a
    version of at least three fields changes nothing, provided the new
    fields are texts of integers. *)
Theorem increment_version_extra_fields (version extra bump : pystr) :
  (3 <= length (split 46 version))%nat ->
  Forall (fun field => exists z, int_of_str field = Ok z) (split 46 extra) ->
  increment_version (version ++ 46 :: extra) bump
  = increment_version version bump.
Proof.
  intros Hlen Hextra.
  destruct (comprehension_all_ok _ _ Hextra) as [ys2 E2].
  destruct (comprehension int_of_str (split 46 version)) as [ys1|e] eqn:E1.
  - assert (E : comprehension int_of_str (split 46 (version ++ 46 :: extra))
                = Ok (ys1 ++ ys2))
      by (now rewrite split_app, comprehension_app, E1, E2).
    rewrite (increment_version_parts _ bump _ E),
            (increment_version_parts _ bump _ E1).
    pose proof (Forall2_length _ _ _ (comprehension_ok_inv _ _ _ E1)) as Hl.
    assert (Hn : (fields_needed bump <= 3)%nat)
      by (unfold fields_needed; repeat case_decide; lia).
    rewrite length_app.
    rewrite (proj2 (Nat.ltb_ge _ _)) by lia.
    rewrite (proj2 (Nat.ltb_ge (length ys1) _)) by lia.
    rewrite !app_nth1 by lia. reflexivity.
  - unfold increment_version.
    now rewrite split_app, comprehension_app, E1.
Qed.

(** ** Tags and versions *)

Lemma ascii_digit_decimal c : ascii_digit c -> is_decimal c = true.
Proof.
  unfold ascii_digit, is_decimal, decimal_value. intros [H1 H2].
  rewrite (proj2 (N.ltb_lt c 128)) by lia.
  rewrite (proj2 (N.leb_le 48 c)) by lia.
  now rewrite (proj2 (N.leb_le c 57)) by lia.
Qed.

Lemma ascii_digit_not_space c : ascii_digit c -> is_space c = false.
Proof.
  unfold ascii_digit, is_space. intros [H1 H2].
  rewrite (proj2 (N.ltb_lt c 128)) by lia.
  rewrite (proj2 (N.leb_gt c 13)) by lia.
  rewrite (proj2 (N.leb_gt c 32)) by lia.
  now rewrite !andb_false_r.
Qed.

Lemma decimal_text_digit_run n : digit_run (decimal_text n).
Proof.
  split; [apply decimal_text_nonempty|].
  eapply Forall_impl; [apply decimal_text_ascii|]. apply ascii_digit_decimal.
Qed.

Lemma version_string_semver a b c :
  semver_tag (version_string a b c) (version_string a b c) /\
  semver_tag (py "v" ++ version_string a b c) (version_string a b c).
Proof.
  unfold version_string. change (py ".") with [46]. change (py "v") with [118].
  split; [apply semver_tag_bare|apply semver_tag_v]; apply decimal_text_digit_run.
Qed.

Lemma version_string_no_space a b c :
  Forall (fun ch => is_space ch = false) (version_string a b c).
Proof.
  unfold version_string. change (py ".") with [46].
  repeat (apply Forall_app; split);
    try (repeat constructor; fail);
    (eapply Forall_impl; [apply decimal_text_ascii|apply ascii_digit_not_space]).
Qed.

Lemma first_semver_tag_head tag v rest :
  semver_tag tag v -> first_semver_tag (tag :: rest) = Some v.
Proof.
  intros Hv. cbn [first_semver_tag].
  rewrite re_match_semver, (semver_greedy_complete _ _ Hv).
  now rewrite (lstrip_v_semver _ _ Hv).
Qed.

(** Round trip of a release: once the tag [v{a.b.c}] (or the bare [a.b.c])
    heads the list that the query prints, [get_latest_tag] returns the text
    [a.b.c], whatever tags follow. *)
Theorem get_latest_tag_of_version (a b c : N) (others : list pystr)
    (root : pystr) :
  Forall tag_name others ->
  returncode (subprocess_run git_tag_argv root) = 0%Z ->
  (stdout (subprocess_run git_tag_argv root)
     = Some (lines_text ((py "v" ++ version_string a b c) :: others)) \/
   stdout (subprocess_run git_tag_argv root)
     = Some (lines_text (version_string a b c :: others))) ->
  get_latest_tag root = Some (version_string a b c).
Proof.
  intros Hothers Hrc [Hout|Hout];
    rewrite (get_latest_tag_lines root _ Hrc Hout), output_lines_text.
  - apply first_semver_tag_head, version_string_semver.
  - constructor; [|exact Hothers]. split; [discriminate|].
    change (py "v") with [118]. constructor; [reflexivity|].
    apply version_string_no_space.
  - apply first_semver_tag_head, version_string_semver.
  - constructor; [|exact Hothers]. split.
    + pose proof (decimal_text_nonempty a) as Hne. unfold version_string.
      destruct (decimal_text a); [congruence|discriminate].
    + apply version_string_no_space.
Qed.

Lemma get_latest_tag_some root v :
  get_latest_tag root = Some v -> exists tag, semver_tag tag v.
Proof.
  unfold get_latest_tag. case_decide; [discriminate|]. intros Hv.
  pose proof (first_semver_tag_spec _
    (output_lines_no_newline
       (default [] (stdout (subprocess_run git_tag_argv root))))) as Hm.
  rewrite Hv in Hm. inversion Hm; subst. eexists; eassumption.
Qed.

Lemma semver_tag_bare_form tag v :
  semver_tag tag v ->
  exists d1 d2 d3, digit_run d1 /\ digit_run d2 /\ digit_run d3 /\
                   v = d1 ++ 46 :: d2 ++ 46 :: d3.
Proof. intros [d1 d2 d3 ? ? ?|d1 d2 d3 ? ? ?]; now exists d1, d2, d3. Qed.

Lemma decimal_int_digit c :
  digits_not_space -> is_decimal c = true ->
  (exists d, int_digit c = Some d) /\ int_space c = false /\
  c <> 95 /\ c <> 43 /\ c <> 45 /\ c <> 46.
Proof.
  intros Hns Hc.
  assert (Hascii : c <> 95 /\ c <> 43 /\ c <> 45 /\ c <> 46)
    by (repeat split; intros ->; vm_compute in Hc; discriminate).
  split; [|split; [|exact Hascii]].
  - unfold is_decimal in Hc. unfold int_digit.
    destruct (c <? 128) eqn:E.
    + destruct (decimal_value c); [now eexists|discriminate].
    + destruct (unicode_space c) eqn:Es.
      * unfold decimal_value in Hc. rewrite E, (Hns c Es) in Hc. discriminate.
      * destruct (decimal_value c); [now eexists|discriminate].
  - unfold is_decimal, decimal_value in Hc. unfold int_space.
    destruct (c <? 128) eqn:E.
    + destruct ((48 <=? c) && (c <=? 57)) eqn:E2; [|discriminate].
      apply andb_true_iff in E2 as [H1 H2].
      apply N.leb_le in H1, H2.
      rewrite (proj2 (N.leb_gt c 13)) by lia.
      rewrite (proj2 (N.eqb_neq c 32)) by lia.
      now rewrite andb_false_r.
    + destruct (unicode_space c) eqn:Es; [|reflexivity].
      rewrite (Hns c Es) in Hc. discriminate.
Qed.

Lemma scan_digits_run d acc k :
  digits_not_space -> Forall (fun c => is_decimal c = true) d ->
  exists n, scan_digits d acc k false true
            = Some (n, k + N.of_nat (length d), []).
Proof.
  intros Hns Hd. revert acc k. induction Hd as [|c d Hc _ IH]; intros acc k.
  - exists acc. simpl. now rewrite N.add_0_r.
  - destruct (decimal_int_digit c Hns Hc) as ([dv Hdv] & _ & H95 & _).
    cbn [scan_digits length]. rewrite (proj2 (N.eqb_neq c 95)) by exact H95.
    rewrite Hdv. destruct (IH (acc * 10 + dv) (k + 1)) as [n Hn].
    exists n.
    replace (k + N.of_nat (S (length d))) with (k + 1 + N.of_nat (length d))
      by lia.
    exact Hn.
Qed.

(** [int] accepts a non-empty run of decimal digits exactly when it has at
    most as many digits as the limit allows. *)
Lemma int_of_str_digit_run d :
  digits_not_space -> digit_run d ->
  exists n,
    int_of_str d =
    if int_max_str_digits <? N.of_nat (length d) then Raise ValueError
    else Ok (Z.of_N n).
Proof.
  intros Hns [Hne Hd]. destruct Hd as [|c d Hc Hd]; [congruence|].
  destruct (decimal_int_digit c Hns Hc) as ([dv Hdv] & Hsp & H95 & H43 & H45 & _).
  destruct (scan_digits_run d (0 * 10 + dv) (0 + 1) Hns Hd) as [n Hn].
  exists n. unfold int_of_str. cbn [drop_while]. rewrite Hsp.
  assert (Hsign :
    match c :: d with
    | 43 :: r => (false, r)
    | 45 :: r => (true, r)
    | _ => (false, c :: d)
    end = (false, c :: d)).
  { destruct c as [|p]; [reflexivity|].
    do 6 (destruct p as [p|p|]; try reflexivity); congruence. }
  rewrite Hsign. cbn [scan_digits].
  rewrite (proj2 (N.eqb_neq c 95)) by exact H95.
  rewrite Hdv, Hn. cbn [length drop_while].
  replace (0 + 1 + N.of_nat (length d)) with (N.of_nat (S (length d))) by lia.
  reflexivity.
Qed.

Lemma bumped_naturals bump a b c :
  bumped bump (Z.of_N a) (Z.of_N b) (Z.of_N c) = bump_result bump a b c.
Proof.
  unfold bumped, bump_result, bumped_field, bumped_version, int_text.
  repeat case_decide;
    rewrite ?(proj2 (Z.ltb_ge _ _)) by lia; rewrite ?Zabs2N.id;
    change 1%Z with (Z.of_N 1);
    rewrite <- N2Z.inj_add, str_of_N_spec;
    match goal with
    | |- context [?n + 1 <? max_int_text] => destruct (n + 1 <? max_int_text)
    end; reflexivity.
Qed.

Lemma digit_run_no_dot d : digit_run d -> Forall (fun c => c <> 46) d.
Proof.
  intros [_ Hd]. eapply Forall_impl; [exact Hd|].
  intros c Hc. now apply is_decimal_ascii in Hc.
Qed.

(** The fields of a text of three digit runs, as [increment_version] reads
    and bumps them. *)
Lemma increment_version_runs d1 d2 d3 bump :
  digits_not_space -> digit_run d1 -> digit_run d2 -> digit_run d3 ->
  (Forall (fun d => N.of_nat (length d) <= int_max_str_digits) [d1; d2; d3] ->
   exists a b c,
     comprehension int_of_str (split 46 (d1 ++ 46 :: d2 ++ 46 :: d3))
       = Ok [Z.of_N a; Z.of_N b; Z.of_N c] /\
     increment_version (d1 ++ 46 :: d2 ++ 46 :: d3) bump
       = bump_result bump a b c) /\
  (Exists (fun d => int_max_str_digits < N.of_nat (length d)) [d1; d2; d3] ->
   increment_version (d1 ++ 46 :: d2 ++ 46 :: d3) bump = Raise ValueError).
Proof.
  intros Hns H1 H2 H3.
  destruct (int_of_str_digit_run d1 Hns H1) as [a Ha].
  destruct (int_of_str_digit_run d2 Hns H2) as [b Hb].
  destruct (int_of_str_digit_run d3 Hns H3) as [c Hc].
  assert (Hsplit : split 46 (d1 ++ 46 :: d2 ++ 46 :: d3) = [d1; d2; d3]).
  { rewrite split_app_sep by now apply digit_run_no_dot.
    rewrite split_app_sep by now apply digit_run_no_dot.
    now rewrite split_no_sep by now apply digit_run_no_dot. }
  split.
  - intros Hall. apply Forall_cons in Hall as [L1 Hall].
    apply Forall_cons in Hall as [L2 Hall]. apply Forall_cons in Hall as [L3 _].
    rewrite (proj2 (N.ltb_ge _ _) L1) in Ha.
    rewrite (proj2 (N.ltb_ge _ _) L2) in Hb.
    rewrite (proj2 (N.ltb_ge _ _) L3) in Hc.
    exists a, b, c.
    assert (E : comprehension int_of_str (split 46 (d1 ++ 46 :: d2 ++ 46 :: d3))
                = Ok [Z.of_N a; Z.of_N b; Z.of_N c])
      by (rewrite Hsplit; cbn [comprehension]; now rewrite Ha, Hb, Hc).
    split; [exact E|].
    rewrite (increment_version_parts _ bump _ E).
    assert (Hn : (fields_needed bump <= 3)%nat)
      by (unfold fields_needed; repeat case_decide; lia).
    rewrite (proj2 (Nat.ltb_ge _ _)) by (simpl; lia).
    cbn [nth]. apply bumped_naturals.
  - intros Hex. unfold increment_version. rewrite Hsplit. cbn [comprehension].
    apply Exists_cons in Hex as [L1|Hex];
      [rewrite Ha, (proj2 (N.ltb_lt _ _) L1); reflexivity|].
    destruct (int_of_str d1) as [z1|e1] eqn:E1;
      [|now rewrite (int_of_str_raise _ _ E1)].
    apply Exists_cons in Hex as [L2|Hex];
      [rewrite Hb, (proj2 (N.ltb_lt _ _) L2); reflexivity|].
    destruct (int_of_str d2) as [z2|e2] eqn:E2;
      [|now rewrite (int_of_str_raise _ _ E2)].
    apply Exists_cons in Hex as [L3|Hex];
      [rewrite Hc, (proj2 (N.ltb_lt _ _) L3); reflexivity|].
    now apply Exists_nil in Hex.
Qed.

(** What [get_latest_tag] returns is never the empty string, never begins
    with [v], and is three runs of digits between dots.  When no run has
    more than 4300 digits, [int] reads three natural numbers in them and
    [increment_version] returns the text of the bumped version, or raises
    [ValueError] when the incremented number reaches [10 ** 4300]; when some
    run is longer, [increment_version] raises [ValueError].  It raises
    nothing else. *)
Theorem get_latest_tag_feeds_increment (root v bump : pystr) :
  digits_not_space ->
  get_latest_tag root = Some v ->
  v <> [] /\ startswith v (py "v") = false /\
  exists d1 d2 d3,
    v = d1 ++ 46 :: d2 ++ 46 :: d3 /\
    digit_run d1 /\ digit_run d2 /\ digit_run d3 /\
    (Forall (fun d => N.of_nat (length d) <= int_max_str_digits) [d1; d2; d3] ->
     exists a b c,
       comprehension int_of_str (split 46 v)
         = Ok [Z.of_N a; Z.of_N b; Z.of_N c] /\
       increment_version v bump = bump_result bump a b c) /\
    (Exists (fun d => int_max_str_digits < N.of_nat (length d)) [d1; d2; d3] ->
     increment_version v bump = Raise ValueError).
Proof.
  intros Hns Hv. destruct (get_latest_tag_some root v Hv) as [tag Htag].
  destruct (semver_tag_bare_form _ _ Htag) as (d1 & d2 & d3 & H1 & H2 & H3 & ->).
  split; [|split].
  - destruct H1 as [Hne _]. destruct d1; [congruence|discriminate].
  - destruct (digit_run_head d1 (46 :: d2 ++ 46 :: d3) H1) as (c & r & -> & Hc).
    change (py "v") with [118]. cbn [startswith].
    apply is_decimal_ascii in Hc as [Hc _].
    now rewrite (proj2 (N.eqb_neq c 118)) by exact Hc.
  - exists d1, d2, d3. split; [reflexivity|]. repeat (split; [assumption|]).
    now apply increment_version_runs.
Qed.

(** ** The version chosen by the release command *)

Lemma int_text_head z :
  exists c r, int_text z = c :: r /\ c <> 118.
Proof.
  assert (G : forall n, exists c r, decimal_text n = c :: r /\ c <> 118).
  { intros n. pose proof (decimal_text_nonempty n) as Hne.
    pose proof (decimal_text_ascii n) as Hd.
    destruct (decimal_text n) as [|c r]; [congruence|].
    exists c, r. split; [reflexivity|].
    apply Forall_cons in Hd as [Hc _]. unfold ascii_digit in Hc. lia. }
  unfold int_text. destruct (z <? 0)%Z.
  - exists 45, (decimal_text (Z.abs_N z)). split; [reflexivity|discriminate].
  - apply G.
Qed.

Lemma bumped_ok_head bump p0 p1 p2 out :
  bumped bump p0 p1 p2 = Ok out -> startswith out (py "v") = false.
Proof.
  unfold bumped. change (py "v") with [118].
  repeat case_decide;
    match goal with
    | |- context [str_of_int ?z] =>
      destruct (str_of_int z) as [f|] eqn:E; cbn [bind]; [|discriminate];
      apply str_of_int_ok in E; subst f
    end;
    intros [= <-];
    match goal with
    | |- context [startswith (int_text ?z ++ _)] =>
      destruct (int_text_head z) as (c & r & -> & Hc)
    end;
    cbn [app startswith]; now rewrite (proj2 (N.eqb_neq c 118)) by exact Hc.
Qed.

Lemma increment_version_ok_head version bump out :
  increment_version version bump = Ok out -> startswith out (py "v") = false.
Proof.
  destruct (comprehension int_of_str (split 46 version)) as [parts|e] eqn:E.
  - rewrite (increment_version_parts version bump parts E).
    destruct (length parts <? fields_needed bump)%nat; [discriminate|].
    apply bumped_ok_head.
  - unfold increment_version. rewrite E. discriminate.
Qed.

(** Whatever the arguments and the latest tag, a version chosen by the
    release command does not begin with [v]: an explicit version loses all
    its leading [v]s, an incremented one begins with a digit or a sign, and
    the default is [1.0.0].  So the heading [## v{version}] and the tag
    [v{version}] never show a doubled [v]. *)
Theorem release_version_no_leading_v (latest_tag : option pystr)
    (args : release_args) (version : pystr) :
  release_version latest_tag args = Ok version ->
  startswith version (py "v") = false.
Proof.
  unfold release_version.
  destruct (truthy (arg_version args)) as [version_arg|].
  - intros [= <-]. unfold lstrip_chars. change (py "v") with [118].
    destruct (drop_while_decomp (fun c => existsb (N.eqb c) [118]) version_arg)
      as (_ & _ & _ & Hstop).
    destruct (drop_while _ version_arg) as [|c r]; [reflexivity|].
    cbn [stops existsb] in Hstop. cbn [startswith].
    rewrite orb_false_r in Hstop. now rewrite Hstop.
  - destruct (truthy latest_tag) as [tag|].
    + apply increment_version_ok_head.
    + intros [= <-]. reflexivity.
Qed.

Lemma get_latest_tag_nonempty root : get_latest_tag root <> Some [].
Proof.
  intros H. destruct (get_latest_tag_some root [] H) as [tag Htag].
  destruct (semver_tag_bare_form _ _ Htag) as (d1 & ? & ? & _ & _ & _ & E).
  destruct d1; discriminate.
Qed.

(** The notes for the tag that [get_latest_tag] found, for every version:
    they list the commits since the tag exactly when a tag was found.
    [get_latest_tag] never returns the empty string, so the truth test of
    [generate_release_notes] on the tag is the test for [None]. *)
Theorem generate_release_notes_latest_tag (version root : pystr) :
  generate_release_notes version (get_latest_tag root) root =
  Ok (match get_latest_tag root with
      | Some tag => notes_of version (get_commits_since_tag tag root)
      | None => py "## v" ++ version ++ [10]
      end).
Proof.
  pose proof (get_latest_tag_nonempty root) as Hne.
  destruct (get_latest_tag root) as [tag|].
  - apply generate_release_notes_since. congruence.
  - reflexivity.
Qed.

(** ** Harvested commits *)

Lemma harvested_fields lines cs :
  harvested lines cs -> Forall no_newline lines ->
  Forall (fun c => no_bar (message c) /\ no_bar (hash c) /\
                   no_newline (message c) /\ no_newline (hash c)) cs /\
  (length cs <= length lines)%nat.
Proof.
  unfold no_newline.
  induction 1 as [|line lines cs Hn _ IH|m h lines cs Hm Hh _ IH
                  |m h a lines cs Hm Hh _ IH]; intros Hnl.
  - split; [constructor|reflexivity].
  - apply Forall_cons in Hnl as [_ Hnl]. destruct (IH Hnl). split; simpl; [auto|lia].
  - apply Forall_cons in Hnl as [Hl Hnl]. destruct (IH Hnl).
    apply Forall_app in Hl as [Hl1 Hl2]. apply Forall_cons in Hl2 as [_ Hl2].
    split; simpl; [|lia]. constructor; [|assumption]. now repeat split.
  - apply Forall_cons in Hnl as [Hl Hnl]. destruct (IH Hnl).
    apply Forall_app in Hl as [Hl1 Hl2]. apply Forall_cons in Hl2 as [_ Hl2].
    apply Forall_app in Hl2 as [Hl2 _].
    split; simpl; [|lia]. constructor; [|assumption]. now repeat split.
Qed.

Lemma get_commits_cases tag root :
  get_commits_since_tag tag root = [] \/
  get_commits_since_tag tag root =
  fold_left harvest_line
    (output_lines (default [] (stdout (subprocess_run (git_log_argv tag) root))))
    [].
Proof.
  unfold get_commits_since_tag.
  destruct (bool_decide _ || bool_decide _); [now left|now right].
Qed.

Lemma get_commits_since_tag_fields_aux tag root :
  Forall (fun c => no_bar (message c) /\ no_bar (hash c) /\
                   no_newline (message c) /\ no_newline (hash c))
    (get_commits_since_tag tag root) /\
  (length (get_commits_since_tag tag root) <=
   length (output_lines
             (default [] (stdout (subprocess_run (git_log_argv tag) root)))))%nat.
Proof.
  destruct (get_commits_cases tag root) as [E|E]; rewrite E.
  - split; [constructor|simpl; lia].
  - apply harvested_fields; [apply harvest_loop_spec|].
    apply output_lines_no_newline.
Qed.

(** Whatever the query prints, a harvested message and a harvested hash
    contain neither a bar nor a newline, and there are at most as many
    commits as lines of output. *)
Theorem get_commits_since_tag_fields (tag root : pystr) :
  Forall (fun c => no_bar (message c) /\ no_bar (hash c) /\
                   no_newline (message c) /\ no_newline (hash c))
    (get_commits_since_tag tag root) /\
  (length (get_commits_since_tag tag root) <=
   length (output_lines
             (default [] (stdout (subprocess_run (git_log_argv tag) root)))))%nat.
Proof. apply get_commits_since_tag_fields_aux. Qed.

(** ** Printing and harvesting a log *)

Lemma drop_while_app_stop p (u : pystr) c w :
  p c = false -> drop_while p (u ++ c :: w) = drop_while p u ++ c :: w.
Proof.
  intros Hc. induction u as [|x u IH]; simpl; [now rewrite Hc|].
  now destruct (p x).
Qed.

Lemma rstrip_app_nonspace X c a :
  is_space c = false -> rstrip (X ++ c :: a) = X ++ c :: rstrip a.
Proof.
  intros Hc. unfold rstrip.
  rewrite rev_app_distr. cbn [rev]. rewrite <- app_assoc. cbn [app].
  rewrite drop_while_app_stop by exact Hc.
  rewrite rev_app_distr. cbn [rev].
  now rewrite rev_involutive, <- app_assoc.
Qed.

Lemma rstrip_app_spaces a ws :
  Forall (fun c => is_space c = true) ws -> rstrip (a ++ ws) = rstrip a.
Proof.
  intros Hws. unfold rstrip. rewrite rev_app_distr. f_equal.
  assert (H : Forall (fun c => is_space c = true) (rev ws))
    by (apply Forall_forall; intros x Hx; rewrite Forall_forall in Hws;
        apply Hws, list_elem_of_In, in_rev, list_elem_of_In, Hx).
  clear Hws. induction H as [|x l Hx _ IH]; simpl; [reflexivity|].
  now rewrite Hx.
Qed.

Lemma Forall_drop_while (P : char -> Prop) p s :
  Forall P s -> Forall P (drop_while p s).
Proof.
  induction 1 as [|c s Hc Hs IH]; simpl; [constructor|].
  destruct (p c); [exact IH|now constructor].
Qed.

Lemma Forall_rstrip (P : char -> Prop) s : Forall P s -> Forall P (rstrip s).
Proof.
  intros H. unfold rstrip.
  assert (G : forall l : pystr, Forall P l -> Forall P (rev l)).
  { intros l Hl. apply Forall_forall. intros x Hx.
    rewrite Forall_forall in Hl. apply Hl.
    apply list_elem_of_In. apply list_elem_of_In in Hx. now apply in_rev. }
  apply G, Forall_drop_while, G, H.
Qed.

Lemma join_snoc (sep : pystr) l x :
  join sep (l ++ [x]) = flat_map (fun y => y ++ sep) l ++ x.
Proof.
  induction l as [|y l IH]; [reflexivity|].
  cbn [app flat_map]. rewrite <- app_assoc, <- IH, <- app_assoc.
  destruct l; reflexivity.
Qed.

Lemma split_lines_snoc ls x :
  Forall no_newline ls -> no_newline x ->
  split 10 (flat_map (fun y => y ++ [10]) ls ++ x) = ls ++ [x].
Proof.
  intros Hls Hx. induction Hls as [|l ls Hl _ IH]; cbn [flat_map app].
  - now apply split_no_sep.
  - rewrite <- !app_assoc. cbn [app].
    rewrite split_app_sep by exact Hl. now rewrite IH.
Qed.

Lemma harvested_entries es :
  Forall entry_ok es -> harvested (log_line <$> es) (commit_of_entry <$> es).
Proof.
  induction 1 as [|e es (Hs & Hh & _) _ IH]; [constructor|].
  rewrite !fmap_cons. unfold log_line at 1, commit_of_entry at 1.
  now apply harvested_three.
Qed.

Lemma log_line_no_newline e : entry_ok e -> no_newline (log_line e).
Proof.
  intros (_ & _ & Hs & Hh & Ha). unfold log_line, no_newline in *.
  apply Forall_app. split; [exact Hs|]. constructor; [discriminate|].
  apply Forall_app. split; [exact Hh|]. now constructor.
Qed.

Lemma log_text_snoc init last :
  log_text (init ++ [last]) =
  flat_map (fun y => y ++ [10]) (log_line <$> init) ++ log_line last.
Proof. unfold log_text. rewrite fmap_app. apply join_snoc. Qed.

(** Harvesting undoes the printing of the log.  For entries whose subject
    and hash hold no bar and whose fields hold no newline, printed one per
    line in the format [subject|hash|author] and followed by any white
    space, [get_commits_since_tag] returns the subjects and hashes of the
    entries, in order; the authors, bars included, leave no trace.  The log
    must not begin with white space, which the strip would remove from the
    first subject. *)
Theorem get_commits_since_tag_of_log (entries : list log_entry)
    (trailing tag root : pystr) :
  Forall entry_ok entries ->
  Forall (fun c => is_space c = true) trailing ->
  stops is_space (log_text entries) ->
  returncode (subprocess_run (git_log_argv tag) root) = 0%Z ->
  stdout (subprocess_run (git_log_argv tag) root)
    = Some (log_text entries ++ trailing) ->
  get_commits_since_tag tag root = commit_of_entry <$> entries.
Proof.
  intros Hok Htr Hhead Hrc Hout.
  destruct entries as [|e0 es0] using rev_ind.
  - unfold get_commits_since_tag. rewrite Hrc, Hout.
    change (default [] (Some (log_text [] ++ trailing))) with trailing.
    rewrite (bool_decide_eq_true_2 (strip trailing = []))
      by now apply strip_blank.
    now rewrite orb_true_r.
  - clear IHes0. rename es0 into init, e0 into last.
    apply Forall_app in Hok as [Hinit Hlast].
    apply Forall_cons in Hlast as [Hlast _].
    rewrite (get_commits_lines tag root Hrc), Hout.
    change (default [] (Some ?x)) with x.
    set (last' := {| subject := subject last; short_hash := short_hash last;
                     author := rstrip (author last) |}).
    assert (Hlast' : entry_ok last').
    { destruct Hlast as (H1 & H2 & H3 & H4 & H5). repeat split; try assumption.
      now apply Forall_rstrip. }
    assert (Hlines : output_lines (log_text (init ++ [last]) ++ trailing)
                     = (log_line <$> init) ++ [log_line last']).
    { unfold output_lines, strip.
      assert (Hl : lstrip (log_text (init ++ [last]) ++ trailing)
                   = log_text (init ++ [last]) ++ trailing).
      { apply lstrip_stops.
        assert (Hne : log_text (init ++ [last]) <> []).
        { rewrite log_text_snoc. unfold log_line at 2. intros E.
          apply app_eq_nil in E as [_ E]. apply app_eq_nil in E as [_ E].
          discriminate. }
        destruct (log_text (init ++ [last])); [congruence|exact Hhead]. }
      rewrite Hl, log_text_snoc.
      set (P := flat_map (fun y => y ++ [10]) (log_line <$> init)).
      assert (E1 : (P ++ log_line last) ++ trailing
                   = (P ++ subject last ++ 124 :: short_hash last)
                       ++ 124 :: (author last ++ trailing)).
      { unfold log_line. rewrite <- ?app_assoc. cbn [app].
        now rewrite <- ?app_assoc. }
      assert (E2 : (P ++ subject last ++ 124 :: short_hash last)
                     ++ 124 :: rstrip (author last)
                   = P ++ log_line last').
      { unfold log_line, last'. cbn [subject short_hash author].
        rewrite <- ?app_assoc. cbn [app]. now rewrite <- ?app_assoc. }
      rewrite E1, rstrip_app_nonspace by reflexivity.
      rewrite rstrip_app_spaces by exact Htr. rewrite E2.
      apply split_lines_snoc; [|now apply log_line_no_newline].
      apply Forall_fmap. eapply Forall_impl; [exact Hinit|].
      apply log_line_no_newline. }
    rewrite Hlines.
    apply (harvested_functional ((log_line <$> init) ++ [log_line last'])).
    + apply harvest_loop_spec.
    + assert (E : commit_of_entry <$> init ++ [last]
                  = commit_of_entry <$> init ++ [last'])
        by (rewrite !fmap_app; reflexivity).
      rewrite E.
      change ((log_line <$> init) ++ [log_line last'])
        with ((log_line <$> init) ++ (log_line <$> [last'])).
      rewrite <- fmap_app. apply harvested_entries.
      apply Forall_app. split; [exact Hinit|now constructor].
Qed.

(** ** Lines of the release notes *)

Lemma split_join_lines x elems :
  split 10 (join [10] (x :: elems)) = concat (split 10 <$> (x :: elems)).
Proof.
  revert x; induction elems as [|y elems IH]; intros x.
  - cbn. now rewrite app_nil_r.
  - change (join [10] (x :: y :: elems)) with (x ++ 10 :: join [10] (y :: elems)).
    rewrite split_app, IH. reflexivity.
Qed.

Lemma label_lines k label :
  (k, label) ∈ rendered -> split 10 (label ++ [10]) = [label; []].
Proof.
  unfold rendered. intros H.
  repeat (apply elem_of_cons in H as [[= -> ->]|H]; [vm_compute; reflexivity|]).
  now apply elem_of_nil in H.
Qed.

Lemma strip_prefix_no_newline token m :
  no_newline m -> no_newline (strip_prefix token m).
Proof.
  intros H. unfold strip_prefix, no_newline.
  apply Forall_drop_while. now apply Forall_drop.
Qed.

Lemma section_lines_ok version commits kh :
  kh ∈ rendered ->
  Forall (fun c => no_newline (message c)) commits ->
  Forall (fun e => Forall (notes_line version) (split 10 e))
    (section_lines commits kh).
Proof.
  intros Hk Hc. destruct kh as [k label]. unfold section_lines. cbn [fst snd].
  assert (Hb : Forall no_newline (bucket_of k commits)).
  { unfold bucket_of. apply Forall_forall. intros m Hm.
    apply list_elem_of_filter in Hm as [_ Hm].
    apply list_elem_of_fmap in Hm as (c & -> & Hin).
    rewrite Forall_forall in Hc. now apply Hc. }
  destruct (bucket_of k commits) as [|m b]; [constructor|].
  constructor; [|apply Forall_app; split].
  - rewrite (label_lines k label Hk).
    constructor; [|constructor; [|constructor]].
    + right. right. left. now exists k, label.
    + right. now left.
  - apply Forall_fmap. eapply Forall_impl; [exact Hb|].
    intros m' Hm'. unfold compose.
    assert (Hnl : Forall (fun c => c <> 10) (py "- " ++ strip_prefix (py k) m')).
    { apply Forall_app. split; [repeat constructor; discriminate|].
      now apply strip_prefix_no_newline. }
    rewrite (split_no_sep _ _ Hnl).
    constructor; [|constructor]. right. right. right. now eexists.
  - constructor; [|constructor]. cbn.
    constructor; [|constructor]. right. now left.
Qed.

(** For a version without a newline every line of the release notes is the
    version heading, one of the four section headings, a bullet that begins
    with [- ], or empty, whatever the query printed: a commit message never
    spills over several lines or forges a heading of its own. *)
Theorem generate_release_notes_lines (version : pystr)
    (prev_tag : option pystr) (root notes : pystr) :
  no_newline version ->
  generate_release_notes version prev_tag root = Ok notes ->
  Forall (notes_line version) (split 10 notes).
Proof.
  intros Hv Hnotes.
  assert (Hhead : Forall (notes_line version)
                    (split 10 (py "## v" ++ version ++ [10]))).
  { rewrite heading_lines by exact Hv.
    constructor; [now left|]. constructor; [right; now left|constructor]. }
  destruct prev_tag as [[|c0 tag]|].
  - rewrite (proj2 (generate_release_notes_first version root)) in Hnotes.
    now injection Hnotes as <-.
  - rewrite generate_release_notes_since in Hnotes by discriminate.
    injection Hnotes as <-. unfold notes_of.
    rewrite split_join_lines, fmap_cons. cbn [concat].
    apply Forall_app. split; [exact Hhead|].
    apply Forall_concat, Forall_fmap.
    apply Forall_forall. intros e He.
    apply list_elem_of_In, in_flat_map in He as (kh & Hkh & He).
    apply list_elem_of_In in Hkh, He.
    assert (Hmsgs : Forall (fun c => no_newline (message c))
                      (get_commits_since_tag (c0 :: tag) root)).
    { eapply Forall_impl;
        [apply (proj1 (get_commits_since_tag_fields_aux (c0 :: tag) root))|].
      intros c (_ & _ & H & _). exact H. }
    pose proof (section_lines_ok version _ kh Hkh Hmsgs) as Hs.
    rewrite Forall_forall in Hs. exact (Hs e He).
  - rewrite (proj1 (generate_release_notes_first version root)) in Hnotes.
    now injection Hnotes as <-.
Qed.

(** ** Categorising in pieces *)

Lemma bucket_of_app k l1 l2 :
  bucket_of k (l1 ++ l2) = bucket_of k l1 ++ bucket_of k l2.
Proof. unfold bucket_of. now rewrite fmap_app, filter_app. Qed.

(** Categorising two lists one after the other and joining the buckets key
    by key gives the buckets of the concatenated list. *)
Theorem categorize_commits_app (l1 l2 : list commit) :
  exists c1 c2 c12,
    categorize_commits l1 = Ok c1 /\
    categorize_commits l2 = Ok c2 /\
    categorize_commits (l1 ++ l2) = Ok c12 /\
    forall k, c12 !! k = union_with (fun b1 b2 => Some (b1 ++ b2)) (c1 !! k) (c2 !! k).
Proof.
  destruct (categorize_commits_buckets l1) as (c1 & H1 & B1).
  destruct (categorize_commits_buckets l2) as (c2 & H2 & B2).
  destruct (categorize_commits_buckets (l1 ++ l2)) as (c12 & H12 & B12).
  exists c1, c2, c12. repeat split; try assumption.
  intros k. rewrite B1, B2, B12. case_decide; [|reflexivity].
  cbn. now rewrite bucket_of_app.
Qed.

(** ** Successive and alternative bumps *)

Lemma bump_times_patch a b n c :
  a < max_int_text -> b < max_int_text -> c + N.of_nat n < max_int_text ->
  bump_times n (py "patch") (version_string a b c)
  = Ok (version_string a b (c + N.of_nat n)).
Proof.
  intros Ha Hb. revert c. induction n as [|n IH]; intros c Hc.
  - cbn [bump_times]. simpl N.of_nat. now rewrite N.add_0_r.
  - cbn [bump_times].
    rewrite increment_version_other;
      [|vm_compute; discriminate|vm_compute; discriminate|lia ..].
    cbn [bind]. rewrite IH by lia.
    now replace (c + 1 + N.of_nat n) with (c + N.of_nat (S n)) by lia.
Qed.

Lemma bump_times_minor a n b c :
  a < max_int_text -> c < max_int_text ->
  b + N.of_nat (S n) < max_int_text ->
  bump_times (S n) (py "minor") (version_string a b c)
  = Ok (version_string a (b + N.of_nat (S n)) 0).
Proof.
  intros Ha. revert b c. induction n as [|n IH]; intros b c Hc Hb.
  - cbn [bump_times]. rewrite increment_version_minor by lia. reflexivity.
  - change (bump_times (S (S n)) (py "minor") (version_string a b c))
      with (do next <- increment_version (version_string a b c) (py "minor") ;
            bump_times (S n) (py "minor") next).
    rewrite increment_version_minor by lia. cbn [bind].
    rewrite IH by lia.
    now replace (b + 1 + N.of_nat (S n)) with (b + N.of_nat (S (S n))) by lia.
Qed.

Lemma bump_times_major n a b c :
  b < max_int_text -> c < max_int_text ->
  a + N.of_nat (S n) < max_int_text ->
  bump_times (S n) (py "major") (version_string a b c)
  = Ok (version_string (a + N.of_nat (S n)) 0 0).
Proof.
  revert a b c. induction n as [|n IH]; intros a b c Hb Hc Ha.
  - cbn [bump_times]. rewrite increment_version_major by lia. reflexivity.
  - change (bump_times (S (S n)) (py "major") (version_string a b c))
      with (do next <- increment_version (version_string a b c) (py "major") ;
            bump_times (S n) (py "major") next).
    rewrite increment_version_major by lia. cbn [bind].
    rewrite IH by lia.
    now replace (a + 1 + N.of_nat (S n)) with (a + N.of_nat (S (S n))) by lia.
Qed.

(** The text that [increment_version] returns is again a version that it
    accepts, as long as the numbers keep at most 4300 digits.  For a version
    [a.b.c] of numbers below [10 ** 4300]: [n] patch bumps in a row add [n]
    to the patch number; [n] minor bumps ([n] positive) add [n] to the minor
    number and leave patch 0; [n] major bumps add [n] to the major number
    and leave 0.0; each provided the number reached is below [10 ** 4300].
    Three patch bumps of [1.2.3] give [1.2.6]. *)
Theorem bump_times_adds (n : nat) (a b c : N) :
  a < max_int_text -> b < max_int_text -> c < max_int_text ->
  (c + N.of_nat n < max_int_text ->
   bump_times n (py "patch") (version_string a b c)
     = Ok (version_string a b (c + N.of_nat n))) /\
  (b + N.of_nat (S n) < max_int_text ->
   bump_times (S n) (py "minor") (version_string a b c)
     = Ok (version_string a (b + N.of_nat (S n)) 0)) /\
  (a + N.of_nat (S n) < max_int_text ->
   bump_times (S n) (py "major") (version_string a b c)
     = Ok (version_string (a + N.of_nat (S n)) 0 0)) /\
  bump_times 3 (py "patch") (py "1.2.3") = Ok (py "1.2.6") /\
  bump_times 2 (py "minor") (py "1.2.3") = Ok (py "1.4.0") /\
  bump_times 2 (py "major") (py "1.2.3") = Ok (py "3.0.0").
Proof.
  intros Ha Hb Hc.
  split; [|split; [|split; [|repeat split; vm_compute; reflexivity]]].
  - now apply bump_times_patch.
  - now apply bump_times_minor.
  - now apply bump_times_major.
Qed.

(** From the same version [a.b.c], whose numbers and their successors have
    at most 4300 digits, a patch bump gives [a.b.(c+1)], a minor bump
    [a.(b+1).0] and a major bump [(a+1).0.0]: the patch bump gives less
    than the minor bump, which gives less than the major bump, and all
    three give more than the version itself.  The triples are those that
    [int] reads between the dots of the three results. *)
Theorem bump_kinds_ordered (a b c : N) :
  a + 1 < max_int_text -> b + 1 < max_int_text -> c + 1 < max_int_text ->
  exists p m M,
    increment_version (version_string a b c) (py "patch") = Ok p /\
    increment_version (version_string a b c) (py "minor") = Ok m /\
    increment_version (version_string a b c) (py "major") = Ok M /\
    p = version_string a b (c + 1) /\
    m = version_string a (b + 1) 0 /\
    M = version_string (a + 1) 0 0 /\
    reads_as (version_string a b c) (a, b, c) /\
    reads_as p (a, b, c + 1) /\
    reads_as m (a, b + 1, 0) /\
    reads_as M (a + 1, 0, 0) /\
    version_lt (a, b, c) (a, b, c + 1) /\
    version_lt (a, b, c + 1) (a, b + 1, 0) /\
    version_lt (a, b + 1, 0) (a + 1, 0, 0).
Proof.
  intros Ha Hb Hc. pose proof max_int_text_pos as H0.
  exists (version_string a b (c + 1)), (version_string a (b + 1) 0),
         (version_string (a + 1) 0 0).
  split; [apply increment_version_other;
            [vm_compute; discriminate|vm_compute; discriminate|lia ..]|].
  split; [apply increment_version_minor; lia|].
  split; [apply increment_version_major; lia|].
  do 3 (split; [reflexivity|]).
  do 4 (split; [apply reads_as_version_string; lia|]).
  simpl. lia.
Qed.

(** The version enters the release notes through the heading only: what
    follows the heading is the same for every version. *)
Theorem generate_release_notes_body (prev_tag : option pystr) (root : pystr) :
  exists body, forall version,
    generate_release_notes version prev_tag root
    = Ok (py "## v" ++ version ++ [10] ++ body).
Proof.
  destruct prev_tag as [[|c0 tag]|].
  - exists []. intros version. rewrite app_nil_r.
    apply generate_release_notes_first.
  - destruct (flat_map (section_lines (get_commits_since_tag (c0 :: tag) root))
                rendered) as [|x l] eqn:E.
    + exists []. intros version.
      rewrite generate_release_notes_since by discriminate.
      unfold notes_of. rewrite E, app_nil_r. reflexivity.
    + exists ([10] ++ join [10] (x :: l)). intros version.
      rewrite generate_release_notes_since by discriminate.
      unfold notes_of. rewrite E. cbn [join].
      now rewrite <- !app_assoc.
  - exists []. intros version. rewrite app_nil_r.
    apply generate_release_notes_first.
Qed.

End Release.

(** * Instances

    The theorems at concrete inputs: a table of decimal digits, and
    processes that end with a given status and output. *)

Lemma categorize_commits_partition_witness :
  exists cats,
    categorize_commits
      [ {| message := py "feat: a"; hash := py "1" |};
        {| message := py "chore: b"; hash := py "2" |} ] = Ok cats /\
    cats !! "feat" = Some [py "feat: a"].
Proof.
  destruct (categorize_commits_partition
              [ {| message := py "feat: a"; hash := py "1" |};
                {| message := py "chore: b"; hash := py "2" |} ])
    as (cats & Hok & _ & Hbucket & _).
  exists cats. split; [exact Hok|].
  rewrite (Hbucket "feat"); [vm_compute; reflexivity|].
  unfold category_keys, priority. simpl. repeat constructor.
Defined.

Lemma increment_version_bump_witness :
  increment_version sample_decimal (version_string 1 2 3) (py "hotfix")
  = Ok (version_string 1 2 4).
Proof.
  destruct (increment_version_bump sample_decimal) as [H _].
  pose proof max_int_text_large as L.
  destruct (H 1 2 3) as (_ & _ & _ & Hother); [lia ..|].
  apply Hother; [lia|vm_compute; discriminate ..].
Defined.

(** C3 as stated, for every version of three natural numbers, fails at
    the version [10 ** 4300 . 0 . 0], whose first number is written with a
    one and 4300 zeros: [int] refuses a field of 4301 digits, so that no
    text is returned. *)
Lemma increment_version_long_field_counterexample :
  version_string max_int_text 0 0 = 49 :: repeat 48 4300 ++ py ".0.0" /\
  increment_version sample_decimal (49 :: repeat 48 4300 ++ py ".0.0")
    (py "patch") = Raise ValueError /\
  increment_version sample_decimal (version_string max_int_text 0 0)
    (py "patch") <> Ok (version_string max_int_text 0 1).
Proof.
  assert (T : version_string max_int_text 0 0
              = 49 :: repeat 48 4300 ++ py ".0.0").
  { unfold version_string.
    change max_int_text with (10 ^ N.of_nat 4300).
    now rewrite decimal_text_pow10. }
  assert (E : increment_version sample_decimal (version_string max_int_text 0 0)
                (py "patch") = Raise ValueError).
  { rewrite increment_version_spec. now rewrite N.ltb_irrefl. }
  split; [exact T|]. split; [now rewrite <- T|].
  rewrite E. discriminate.
Qed.

Lemma increment_version_strictly_greater_witness :
  exists out a' b' c',
    increment_version sample_decimal (version_string 1 2 3) (py "minor")
      = Ok out /\
    out = version_string a' b' c' /\
    reads_as sample_decimal (version_string 1 2 3) (1, 2, 3) /\
    reads_as sample_decimal out (a', b', c') /\
    version_lt (1, 2, 3) (a', b', c').
Proof.
  pose proof max_int_text_large as L.
  apply (increment_version_strictly_greater sample_decimal 1 2 3 (py "minor"));
    [lia ..|].
  unfold bumped_field. rewrite decide_False by (vm_compute; discriminate).
  rewrite decide_True by reflexivity. lia.
Defined.

(** C2 as stated, for every version of three natural numbers, fails at the
    version whose first number is [10 ** 4300 - 1], written with 4300
    nines.  [int] reads the three fields, but a major bump cannot render
    the incremented number [10 ** 4300], which has 4301 digits: no version
    is returned. *)
Lemma increment_version_last_rendered_counterexample :
  version_string (max_int_text - 1) 0 0 = repeat 57 4300 ++ py ".0.0" /\
  reads_as sample_decimal (repeat 57 4300 ++ py ".0.0")
    (max_int_text - 1, 0, 0) /\
  increment_version sample_decimal (repeat 57 4300 ++ py ".0.0") (py "major")
    = Raise ValueError /\
  forall a' b' c',
    increment_version sample_decimal (version_string (max_int_text - 1) 0 0)
      (py "major") <> Ok (version_string a' b' c').
Proof.
  pose proof max_int_text_large as L.
  assert (T : version_string (max_int_text - 1) 0 0
              = repeat 57 4300 ++ py ".0.0").
  { unfold version_string.
    change (max_int_text - 1) with (10 ^ N.of_nat 4300 - 1).
    now rewrite (decimal_text_pow10_pred 4299). }
  assert (E : increment_version sample_decimal
                (version_string (max_int_text - 1) 0 0) (py "major")
              = Raise ValueError).
  { assert (A : (max_int_text - 1 <? max_int_text) = true)
      by (apply N.ltb_lt; lia).
    assert (Z : (0 <? max_int_text) = true) by (apply N.ltb_lt; lia).
    rewrite increment_version_spec, A, Z. cbn [andb].
    unfold bump_result, bumped_field.
    rewrite decide_True by reflexivity.
    replace (max_int_text - 1 + 1) with max_int_text by lia.
    now rewrite N.ltb_irrefl. }
  split; [exact T|]. rewrite <- T.
  split; [apply reads_as_version_string; lia|].
  split; [exact E|].
  intros a' b' c'. rewrite E. discriminate.
Qed.


Lemma query_failure_is_soft_witness :
  get_latest_tag sample_decimal (completed 128 (Some [])) (py "/tmp/dummy")
    = None /\
  get_commits_since_tag (completed 0 None) (py "1.0.0") (py "/tmp/dummy") = [].
Proof.
  split.
  - apply (query_failure_is_soft sample_decimal (completed 128 (Some []))
             (py "/tmp/dummy") (py "1.0.0")).
    left. simpl. discriminate.
  - apply (query_failure_is_soft sample_decimal (completed 0 None)
             (py "/tmp/dummy") (py "1.0.0")).
    right. exact I.
Defined.


Lemma categorize_commits_first_prefix_wins_witness :
  category_of (py "featuring") = "feat" <->
  exists before after,
    priority = before ++ "feat" :: after /\
    startswith (py "featuring") (py "feat") = true /\
    Forall (fun k' => startswith (py "featuring") (py k') = false) before.
Proof.
  apply categorize_commits_first_prefix_wins.
  unfold priority. constructor.
Defined.

Lemma generate_release_notes_sections_witness :
  generate_release_notes
    (completed 0 (Some (py "fix: y|def5678|author")))
    (py "1.1.0") (Some (py "1.0.0")) (py "/tmp/dummy")
  = Ok (notes_of (py "1.1.0")
          (get_commits_since_tag
             (completed 0 (Some (py "fix: y|def5678|author")))
             (py "1.0.0") (py "/tmp/dummy"))).
Proof.
  apply (generate_release_notes_sections
           (completed 0 (Some (py "fix: y|def5678|author")))).
  vm_compute. discriminate.
Defined.

(** C8 as stated, for every tag that is not [None], fails at the empty
    string: the log has a feat commit, so its bucket is not empty, yet the
    notes are the heading alone and not the notes of these commits. *)
Lemma generate_release_notes_empty_tag_counterexample :
  bucket_of "feat"
    (get_commits_since_tag
       (completed 0 (Some (py "feat: x|abc1234|author"))) [] (py "/tmp/dummy"))
    = [py "feat: x"] /\
  generate_release_notes
    (completed 0 (Some (py "feat: x|abc1234|author")))
    (py "1.1.0") (Some []) (py "/tmp/dummy")
    = Ok (py "## v1.1.0" ++ [10]) /\
  generate_release_notes
    (completed 0 (Some (py "feat: x|abc1234|author")))
    (py "1.1.0") (Some []) (py "/tmp/dummy")
    <> Ok (notes_of (py "1.1.0")
             (get_commits_since_tag
                (completed 0 (Some (py "feat: x|abc1234|author")))
                [] (py "/tmp/dummy"))).
Proof.
  split; [vm_compute; reflexivity|].
  split; [vm_compute; reflexivity|].
  vm_compute. discriminate.
Qed.

Lemma generate_release_notes_heading_witness :
  py "## v1.0.0" <> py "## ✨ New Features".
Proof.
  destruct (generate_release_notes_heading (completed 0 None))
    as (_ & _ & H & _).
  apply (H (py "1.0.0") (py "/tmp/dummy") (py "## v1.0.0" ++ [10])
           (py "## v1.0.0") "feat" (py "## ✨ New Features")).
  - repeat constructor; discriminate.
  - reflexivity.
  - vm_compute. constructor.
  - unfold rendered. constructor.
Defined.

Lemma rendered_prefix_always_stripped_witness :
  re_sub_empty (prefix_pattern (py "feat")) (py "featuring X")
  = strip_prefix (py "feat") (py "featuring X").
Proof.
  destruct (rendered_prefix_always_stripped (completed 0 None)) as [H _].
  apply (H (py "feat") (py "featuring X")).
  - vm_compute. discriminate.
  - reflexivity.
Defined.

(** * Instances of the further properties *)

Lemma sample_decimal_not_space : digits_not_space sample_decimal.
Proof.
  intros c Hc. unfold unicode_space in Hc. unfold sample_decimal.
  rewrite !orb_true_iff, !andb_true_iff, !N.eqb_eq, !N.leb_le in Hc.
  destruct ((1632 <=? c) && (c <=? 1641)) eqn:E1;
    [apply andb_true_iff in E1 as [H1 H2]; apply N.leb_le in H1, H2; lia|].
  destruct ((2406 <=? c) && (c <=? 2415)) eqn:E2;
    [apply andb_true_iff in E2 as [H1 H2]; apply N.leb_le in H1, H2; lia|].
  destruct ((65296 <=? c) && (c <=? 65305)) eqn:E3;
    [apply andb_true_iff in E3 as [H1 H2]; apply N.leb_le in H1, H2; lia|].
  reflexivity.
Qed.

Lemma increment_version_digits_witness :
  increment_version sample_decimal (py "01.002.3") (py "patch")
  = bump_result (py "patch") 1 2 3.
Proof.
  apply (increment_version_digits sample_decimal
           (D0 (D1 Nil)) (D0 (D0 (D2 Nil))) (D3 Nil) (py "patch"));
    vm_compute; discriminate.
Defined.

Lemma increment_version_index_error_witness :
  increment_version sample_decimal (py "1.2") (py "patch") = Raise IndexError.
Proof.
  apply (increment_version_index_error sample_decimal (py "1.2") (py "patch")).
  split.
  - repeat constructor; eexists; vm_compute; reflexivity.
  - vm_compute. lia.
Defined.

Lemma increment_version_value_error_witness :
  increment_version sample_decimal (py "1.x.3") (py "major") = Raise ValueError.
Proof.
  apply (increment_version_value_error sample_decimal (py "1.x.3") (py "major")).
  left. exists (py "x"). split; [|vm_compute; reflexivity].
  vm_compute. right. left.
Defined.

Lemma increment_version_extra_fields_witness :
  increment_version sample_decimal (py "1.2.3" ++ 46 :: py "4") (py "minor")
  = increment_version sample_decimal (py "1.2.3") (py "minor").
Proof.
  apply (increment_version_extra_fields sample_decimal).
  - vm_compute. lia.
  - repeat constructor; eexists; vm_compute; reflexivity.
Defined.

Lemma get_latest_tag_of_version_witness :
  get_latest_tag sample_decimal
    (completed 0
       (Some (lines_text [py "v" ++ version_string 1 2 4; py "v1.2.3"])))
    (py "/tmp/dummy")
  = Some (version_string 1 2 4).
Proof.
  apply (get_latest_tag_of_version sample_decimal _ 1 2 4 [py "v1.2.3"]).
  - repeat (constructor;
            [split; [vm_compute; discriminate|repeat constructor]|]).
    constructor.
  - reflexivity.
  - left. reflexivity.
Defined.

Lemma get_latest_tag_feeds_increment_witness :
  py "2.1.0" <> [] /\ startswith (py "2.1.0") (py "v") = false /\
  exists d1 d2 d3,
    py "2.1.0" = d1 ++ 46 :: d2 ++ 46 :: d3 /\
    digit_run sample_decimal d1 /\ digit_run sample_decimal d2 /\
    digit_run sample_decimal d3 /\
    (Forall (fun d => N.of_nat (length d) <= int_max_str_digits) [d1; d2; d3] ->
     exists a b c,
       comprehension (int_of_str sample_decimal) (split 46 (py "2.1.0"))
         = Ok [Z.of_N a; Z.of_N b; Z.of_N c] /\
       increment_version sample_decimal (py "2.1.0") (py "minor")
         = bump_result (py "minor") a b c) /\
    (Exists (fun d => int_max_str_digits < N.of_nat (length d)) [d1; d2; d3] ->
     increment_version sample_decimal (py "2.1.0") (py "minor")
       = Raise ValueError).
Proof.
  apply (get_latest_tag_feeds_increment sample_decimal
           (completed 0 (Some (lines_text [py "v2.1.0"; py "v1.0.0"])))
           (py "/tmp/dummy") (py "2.1.0") (py "minor")).
  - exact sample_decimal_not_space.
  - vm_compute. reflexivity.
Defined.

Lemma release_version_no_leading_v_witness :
  startswith (py "2.0.0") (py "v") = false.
Proof.
  apply (release_version_no_leading_v sample_decimal (Some (py "1.4.2"))
           {| arg_version := Some (py "vv2.0.0"); arg_bump := None |}).
  vm_compute. reflexivity.
Defined.

Lemma bump_times_adds_witness :
  bump_times sample_decimal 5 (py "patch") (version_string 1 2 3)
  = Ok (version_string 1 2 (3 + N.of_nat 5)).
Proof.
  pose proof max_int_text_large as L.
  apply (bump_times_adds sample_decimal 5 1 2 3); simpl N.of_nat; lia.
Defined.

Lemma bump_kinds_ordered_witness :
  exists p m M,
    increment_version sample_decimal (version_string 1 2 3) (py "patch") = Ok p /\
    increment_version sample_decimal (version_string 1 2 3) (py "minor") = Ok m /\
    increment_version sample_decimal (version_string 1 2 3) (py "major") = Ok M /\
    p = version_string 1 2 (3 + 1) /\
    m = version_string 1 (2 + 1) 0 /\
    M = version_string (1 + 1) 0 0 /\
    reads_as sample_decimal (version_string 1 2 3) (1, 2, 3) /\
    reads_as sample_decimal p (1, 2, 3 + 1) /\
    reads_as sample_decimal m (1, 2 + 1, 0) /\
    reads_as sample_decimal M (1 + 1, 0, 0) /\
    version_lt (1, 2, 3) (1, 2, 3 + 1) /\
    version_lt (1, 2, 3 + 1) (1, 2 + 1, 0) /\
    version_lt (1, 2 + 1, 0) (1 + 1, 0, 0).
Proof.
  pose proof max_int_text_large as L.
  apply (bump_kinds_ordered sample_decimal 1 2 3); lia.
Defined.

Lemma get_commits_since_tag_of_log_witness :
  get_commits_since_tag
    (completed 0
       (Some (log_text
                [ {| subject := py "feat: 日本語"; short_hash := py "abc1234";
                     author := py "a|b " |};
                  {| subject := py "fix: y"; short_hash := py "def5678";
                     author := py "c" |} ] ++ [10])))
    (py "1.0.0") (py "/tmp/dummy")
  = [ {| message := py "feat: 日本語"; hash := py "abc1234" |};
      {| message := py "fix: y"; hash := py "def5678" |} ].
Proof.
  apply (get_commits_since_tag_of_log
           (completed 0
              (Some (log_text
                       [ {| subject := py "feat: 日本語";
                            short_hash := py "abc1234"; author := py "a|b " |};
                         {| subject := py "fix: y"; short_hash := py "def5678";
                            author := py "c" |} ] ++ [10])))
           [ {| subject := py "feat: 日本語"; short_hash := py "abc1234";
                author := py "a|b " |};
             {| subject := py "fix: y"; short_hash := py "def5678";
                author := py "c" |} ]
           [10] (py "1.0.0") (py "/tmp/dummy")).
  - repeat constructor; vm_compute; discriminate.
  - repeat constructor.
  - reflexivity.
  - reflexivity.
  - reflexivity.
Defined.

Lemma generate_release_notes_lines_witness :
  Forall (notes_line (py "1.1.0"))
    (split 10 (py "## v1.1.0" ++ [10; 10] ++ py "## ✨ New Features"
               ++ [10; 10] ++ py "- x" ++ [10])).
Proof.
  apply (generate_release_notes_lines
           (completed 0 (Some (py "feat: x|abc1234|author")))
           (py "1.1.0") (Some (py "1.0.0")) (py "/tmp/dummy")).
  - repeat constructor; discriminate.
  - vm_compute. reflexivity.
Defined.
